(** * Page behaviour controller (themes/laura-theme/static/js/main.js)

    A shallow embedding of the client-side controller: mobile navigation,
    scroll-reactive header, contact-form validation, anchor links and cards,
    logo carousel and contact modal.  Every feature is a small state machine over the part of
    the page it touches; the functions below keep the names they have in
    main.js and follow its statements in order.

    Modelling conventions.
    - A lookup that may return [null] ([getElementById], [querySelector],
      [parentNode]) is a flag telling whether the element exists, or an
      [option]; dereferencing [null] throws a [TypeError], written [Throw].
    - Attributes and inline style declarations are finite maps from names to
      strings; [removeAttribute] and the assignment of [''] to a style
      property delete the entry.
    - A [classList] is a finite set of class names.
    - Event listeners run to completion one after the other; a listener that
      throws is reported and the remaining listeners still run. *)

From Stdlib Require Import ZArith NArith QArith Ascii String.
From stdpp Require Import gmap strings list.
Local Open Scope string_scope.
Local Open Scope list_scope.
Local Open Scope Z_scope.

(** ** Exceptions *)

Inductive result (A : Type) : Type :=
| Ok (a : A)
| Throw.
Arguments Ok {A} a.
Arguments Throw {A}.

#[global] Instance result_ret : MRet result := fun A a => Ok a.
#[global] Instance result_bind : MBind result := fun A B k r =>
  match r with
  | Ok a => k a
  | Throw => Throw
  end.

#[global] Instance result_fmap : FMap result := fun A B f r =>
  match r with
  | Ok a => Ok (f a)
  | Throw => Throw
  end.

(** [Boolean.prototype.toString]. *)
Definition toString (b : bool) : string :=
  if b then "true" else "false".

(** Assignment to a property of [element.style]; the empty string removes
    the declaration. *)
Definition assign (property value : string) (m : gmap string string)
  : gmap string string :=
  if bool_decide (value = "") then delete property m
  else <[property := value]> m.

(** ** Mobile navigation *)

Module Nav.

(** What the page offers to the navigation feature.  [navToggle],
    [navMenu] and [navigation] tell whether the three module-level lookups
    found an element; [toggle_in_navigation] is
    [navigation.contains(navToggle)] and [menu_has_link] tells whether
    [navMenu.querySelector('.nav-link')] finds an entry. *)
Record page : Type := {
  navToggle : bool;
  navMenu : bool;
  navigation : bool;
  toggle_in_navigation : bool;
  menu_has_link : bool
}.

Inductive node : Type :=
| ToggleControl
| FirstMenuItem
| Elsewhere.

Record state : Type := {
  isMenuOpen : bool;
  toggle_attrs : gmap string string;
  menu_classes : gset string;
  activeElement : node
}.

Definition toggleMobileMenu (pg : page) (s : state) : state :=
  let open := negb (isMenuOpen s) in
  let attrs := <["aria-expanded" := toString open]> (toggle_attrs s) in
  if open then
    {| isMenuOpen := open;
       toggle_attrs := attrs;
       menu_classes := {["nav-menu--open"]} ∪ menu_classes s;
       activeElement :=
         if menu_has_link pg then FirstMenuItem else activeElement s |}
  else
    {| isMenuOpen := open;
       toggle_attrs := attrs;
       menu_classes := menu_classes s ∖ {["nav-menu--open"]};
       activeElement := activeElement s |}.

Definition closeMobileMenu (s : state) : state :=
  {| isMenuOpen := false;
     toggle_attrs := <["aria-expanded" := "false"]> (toggle_attrs s);
     menu_classes := menu_classes s ∖ {["nav-menu--open"]};
     activeElement := activeElement s |}.

Definition focus_toggle (s : state) : state :=
  {| isMenuOpen := isMenuOpen s;
     toggle_attrs := toggle_attrs s;
     menu_classes := menu_classes s;
     activeElement := ToggleControl |}.

(** The listeners registered by [setupMobileNavigation]. *)

Definition on_toggle_click (pg : page) (s : state) : result state :=
  Ok (toggleMobileMenu pg s).

(** [target_in_nav] is [navigation.contains(event.target)], which is only
    evaluated when the menu is open. *)
Definition on_document_click (pg : page) (target_in_nav : bool) (s : state)
  : result state :=
  if isMenuOpen s then
    if navigation pg then
      if negb target_in_nav then Ok (closeMobileMenu s) else Ok s
    else Throw
  else Ok s.

Definition on_keydown (key : string) (s : state) : result state :=
  if bool_decide (key = "Escape") && isMenuOpen s
  then Ok (focus_toggle (closeMobileMenu s))
  else Ok s.

Definition on_resize (innerWidth : Z) (s : state) : result state :=
  if (768 <=? innerWidth) && isMenuOpen s
  then Ok (closeMobileMenu s)
  else Ok s.

Inductive event : Type :=
| ToggleClick
| ToggleTouchEnd
| DocumentClick (target_in_nav : bool)
| KeyDown (key : string)
| Resize (innerWidth : Z).

(** [setupMobileNavigation] returns before registering anything unless both
    the toggle and the menu exist. *)
Definition setupMobileNavigation (pg : page) : bool :=
  negb (negb (navToggle pg) || negb (navMenu pg)).

(** The listeners an event reaches, in the order they run.  A click on the
    toggle first runs the toggle's own listener and then bubbles to the
    document. *)
Definition listeners (pg : page) (ev : event) : list (state -> result state) :=
  if setupMobileNavigation pg then
    match ev with
    | ToggleClick =>
        [on_toggle_click pg; on_document_click pg (toggle_in_navigation pg)]
    | ToggleTouchEnd => [on_toggle_click pg]
    | DocumentClick inside => [on_document_click pg inside]
    | KeyDown key => [on_keydown key]
    | Resize w => [on_resize w]
    end
  else [].

(** State after an event together with the number of uncaught errors. *)
Record outcome : Type := { after : state; uncaught : nat }.

Fixpoint run_listeners (ls : list (state -> result state)) (s : state)
  : outcome :=
  match ls with
  | [] => {| after := s; uncaught := 0 |}
  | l :: ls' =>
      match l s with
      | Ok s' => run_listeners ls' s'
      | Throw =>
          let o := run_listeners ls' s in
          {| after := after o; uncaught := S (uncaught o) |}
      end
  end.

Definition dispatch (pg : page) (ev : event) (s : state) : outcome :=
  run_listeners (listeners pg ev) s.

(** The states reached after each event of a sequence. *)
Fixpoint trace (pg : page) (evs : list event) (s : state) : list state :=
  match evs with
  | [] => []
  | ev :: evs' =>
      let s' := after (dispatch pg ev s) in
      s' :: trace pg evs' s'
  end.

Definition aria_expanded (s : state) : option string :=
  toggle_attrs s !! "aria-expanded".

Definition in_sync (s : state) : Prop :=
  aria_expanded s = Some (toString (isMenuOpen s)).

(** The events the specification lists: an activation of the toggle, and
    the three closing events when their guard holds. *)
Definition fires (s : state) (ev : event) : bool :=
  match ev with
  | ToggleClick | ToggleTouchEnd => true
  | DocumentClick inside => isMenuOpen s && negb inside
  | KeyDown key => bool_decide (key = "Escape") && isMenuOpen s
  | Resize w => (768 <=? w) && isMenuOpen s
  end.

Fixpoint all_fire (pg : page) (evs : list event) (s : state) : bool :=
  match evs with
  | [] => true
  | ev :: evs' => fires s ev && all_fire pg evs' (after (dispatch pg ev s))
  end.

(** State of a freshly loaded page whose toggle carries [attrs]. *)
Definition initial (attrs : gmap string string) (classes : gset string)
  : state :=
  {| isMenuOpen := false;
     toggle_attrs := attrs;
     menu_classes := classes;
     activeElement := Elsewhere |}.

End Nav.

(** ** Mobile navigation: terms of the statements *)

Section NavTerms.

Import Nav.

(** What a single listener may do to the pair (flag, attribute). *)
Definition tidy (l : state -> result state) : Prop :=
  forall s s', l s = Ok s' ->
    s' = s \/ in_sync s'.

Definition nav_page : page :=
  {| navToggle := true; navMenu := true; navigation := true;
     toggle_in_navigation := true; menu_has_link := true |}.

Definition nav_events : list event :=
  [ToggleClick; KeyDown "Escape"; ToggleTouchEnd; Resize 1024;
   ToggleClick; DocumentClick false].

End NavTerms.

(** ** Scroll-reactive header *)

Module Scroll.

(** [x > y] on scroll offsets.  [window.scrollY] is a finite double, that
    is a rational; [hero.offsetHeight] is an integer. *)
Definition gtb (x y : Q) : bool := negb (Qle_bool x y).

(** What [updateNavigation] reads when it runs. *)
Record frame : Type := {
  scrollY : Q;
  offsetHeight : Z
}.

(** [pending] counts the [updateNavigation] callbacks handed to
    [requestAnimationFrame] that have not run yet. *)
Record state : Type := {
  lastScrollY : Q;
  ticking : bool;
  pending : nat;
  nav_classes : gset string
}.

Definition updateNavigation (f : frame) (s : state) : state :=
  let currentScrollY := scrollY f in
  let heroHeight := inject_Z (offsetHeight f) in
  {| lastScrollY := currentScrollY;
     ticking := false;
     pending := pending s;
     nav_classes :=
       if gtb currentScrollY heroHeight && gtb currentScrollY (lastScrollY s)
       then {["hidden"]} ∪ nav_classes s
       else nav_classes s ∖ {["hidden"]} |}.

Definition onScroll (s : state) : state :=
  if negb (ticking s) then
    {| lastScrollY := lastScrollY s;
       ticking := true;
       pending := S (pending s);
       nav_classes := nav_classes s |}
  else s.

(** [setupScrollBehavior] registers the scroll listener only when both the
    navigation container and the hero section exist. *)
Definition setupScrollBehavior (navigation hero : bool) : bool :=
  negb (negb navigation || negb hero).

Inductive event : Type :=
| ScrollEvent
| AnimationFrame (f : frame).

Fixpoint run_callbacks (n : nat) (f : frame) (s : state) : state :=
  match n with
  | O => s
  | S n' => run_callbacks n' f (updateNavigation f s)
  end.

Definition clear_pending (s : state) : state :=
  {| lastScrollY := lastScrollY s; ticking := ticking s; pending := 0;
     nav_classes := nav_classes s |}.

Definition step (ev : event) (s : state) : state :=
  match ev with
  | ScrollEvent => onScroll s
  | AnimationFrame f => run_callbacks (pending s) f (clear_pending s)
  end.

(** The header update run once per sampled frame, oldest frame first. *)
Definition sample (fs : list frame) (s : state) : state :=
  foldl (fun s f => updateNavigation f s) s fs.

(** Offset seen by the most recent sample, before any sample the offset
    recorded at load time. *)
Definition previous_offset (fs : list frame) (s : state) : Q :=
  List.last (scrollY <$> fs) (lastScrollY s).

Definition hidden (s : state) : Prop := "hidden" ∈ nav_classes s.

End Scroll.

(** ** Contact modal *)

Module Modal.

Inductive trigger : Type :=
| ContactModalTrigger
| LeadMagnetTrigger
| ContactTrigger.

(** Elements that can hold keyboard focus. *)
Inductive node : Type :=
| Opener (t : trigger)
| FirstInput
| Elsewhere.

Inductive target : Type :=
| ModalElement
| BodyElement.

(** Callbacks handed to [setTimeout]. *)
Inductive task : Type :=
| FocusFirstInput
| OpenPdfThenClose.

(** Calls and writes, in program order. *)
Inductive effect : Type :=
| StyleWrite (el : target) (property value : string)
| AttributeWrite (el : target) (name value : string)
| FocusCall (n : node)
| WindowOpen (url window_name : string).

Record page : Type := {
  contactModalTrigger : bool;
  leadMagnetTrigger : bool;
  contactTrigger : bool;
  modal : bool;
  modalClose : bool;
  modalOverlay : bool;
  form : bool;
  modal_has_input : bool
}.

(** [timers] holds the pending timeouts with the time at which each is due;
    [now] is the clock in milliseconds. *)
Record state : Type := {
  activeModalTrigger : option trigger;
  modal_style : gmap string string;
  modal_attrs : gmap string string;
  body_style : gmap string string;
  activeElement : node;
  now : Z;
  timers : list (Z * task);
  log : list effect
}.

Definition set_modal_style (property value : string) (s : state) : state :=
  {| activeModalTrigger := activeModalTrigger s;
     modal_style := assign property value (modal_style s);
     modal_attrs := modal_attrs s;
     body_style := body_style s;
     activeElement := activeElement s;
     now := now s;
     timers := timers s;
     log := log s ++ [StyleWrite ModalElement property value] |}.

Definition set_modal_attribute (name value : string) (s : state) : state :=
  {| activeModalTrigger := activeModalTrigger s;
     modal_style := modal_style s;
     modal_attrs := <[name := value]> (modal_attrs s);
     body_style := body_style s;
     activeElement := activeElement s;
     now := now s;
     timers := timers s;
     log := log s ++ [AttributeWrite ModalElement name value] |}.

Definition set_body_style (property value : string) (s : state) : state :=
  {| activeModalTrigger := activeModalTrigger s;
     modal_style := modal_style s;
     modal_attrs := modal_attrs s;
     body_style := assign property value (body_style s);
     activeElement := activeElement s;
     now := now s;
     timers := timers s;
     log := log s ++ [StyleWrite BodyElement property value] |}.

Definition set_trigger (t : option trigger) (s : state) : state :=
  {| activeModalTrigger := t;
     modal_style := modal_style s;
     modal_attrs := modal_attrs s;
     body_style := body_style s;
     activeElement := activeElement s;
     now := now s;
     timers := timers s;
     log := log s |}.

(** An element inside the modal is rendered unless the modal's inline
    [display] is [none]; the opener controls belong to the page. *)
Definition rendered (n : node) (s : state) : bool :=
  match n with
  | FirstInput => negb (bool_decide (modal_style s !! "display" = Some "none"))
  | _ => true
  end.

(** [n.focus()]: the call is made; focus moves when the element is
    rendered. *)
Definition focus (n : node) (s : state) : state :=
  {| activeModalTrigger := activeModalTrigger s;
     modal_style := modal_style s;
     modal_attrs := modal_attrs s;
     body_style := body_style s;
     activeElement := if rendered n s then n else activeElement s;
     now := now s;
     timers := timers s;
     log := log s ++ [FocusCall n] |}.

Definition setTimeout (tk : task) (delay : Z) (s : state) : state :=
  {| activeModalTrigger := activeModalTrigger s;
     modal_style := modal_style s;
     modal_attrs := modal_attrs s;
     body_style := body_style s;
     activeElement := activeElement s;
     now := now s;
     timers := timers s ++ [(now s + delay, tk)];
     log := log s |}.

Definition window_open (url window_name : string) (s : state) : state :=
  {| activeModalTrigger := activeModalTrigger s;
     modal_style := modal_style s;
     modal_attrs := modal_attrs s;
     body_style := body_style s;
     activeElement := activeElement s;
     now := now s;
     timers := timers s;
     log := log s ++ [WindowOpen url window_name] |}.

Definition openModal (triggerElement : trigger) (s : state) : state :=
  let s := set_trigger (Some triggerElement) s in
  let s := set_modal_style "display" "flex" s in
  let s := set_modal_attribute "aria-hidden" "false" s in
  let s := set_body_style "overflow" "hidden" s in
  setTimeout FocusFirstInput 100 s.

Definition closeModal (s : state) : state :=
  let s := set_modal_style "display" "none" s in
  let s := set_modal_attribute "aria-hidden" "true" s in
  let s := set_body_style "overflow" "" s in
  match activeModalTrigger s with
  | Some t => set_trigger None (focus (Opener t) s)
  | None => s
  end.

Definition run_task (pg : page) (tk : task) (s : state) : state :=
  match tk with
  | FocusFirstInput =>
      if modal_has_input pg then focus FirstInput s else s
  | OpenPdfThenClose =>
      let s := window_open "/neuroinclusive-interview-tips.pdf" "_blank" s in
      closeModal s
  end.

(** The submit event as its listeners see it. *)
Record submit_event : Type := { defaultPrevented : bool }.

(** Listener of the embedded subscription form. *)
Definition on_submit (event : submit_event) (s : state)
  : submit_event * state :=
  (event, setTimeout OpenPdfThenClose 1000 s).

Definition on_keydown (key : string) (s : state) : state :=
  if bool_decide (key = "Escape")
     && bool_decide (modal_style s !! "display" = Some "flex")
  then closeModal s
  else s.

Definition trigger_present (pg : page) (t : trigger) : bool :=
  match t with
  | ContactModalTrigger => contactModalTrigger pg
  | LeadMagnetTrigger => leadMagnetTrigger pg
  | ContactTrigger => contactTrigger pg
  end.

Inductive event : Type :=
| TriggerClick (t : trigger)
| CloseClick
| OverlayClick
| KeyDown (key : string)
| Submit
| Elapse (ms : Z)
| Timeout (i : nat).

Definition advance (ms : Z) (s : state) : state :=
  {| activeModalTrigger := activeModalTrigger s;
     modal_style := modal_style s;
     modal_attrs := modal_attrs s;
     body_style := body_style s;
     activeElement := activeElement s;
     now := now s + Z.max 0 ms;
     timers := timers s;
     log := log s |}.

Definition drop_timer (i : nat) (s : state) : state :=
  {| activeModalTrigger := activeModalTrigger s;
     modal_style := modal_style s;
     modal_attrs := modal_attrs s;
     body_style := body_style s;
     activeElement := activeElement s;
     now := now s;
     timers := delete i (timers s);
     log := log s |}.

(** [setupModal] returns before registering anything when the modal is
    missing; each other element gets its listener only if it exists.  A
    pending timeout runs once it is due. *)
Definition step (pg : page) (ev : event) (s : state) : state :=
  match ev with
  | TriggerClick t =>
      if modal pg && trigger_present pg t then openModal t s else s
  | CloseClick => if modal pg && modalClose pg then closeModal s else s
  | OverlayClick => if modal pg && modalOverlay pg then closeModal s else s
  | KeyDown key => if modal pg then on_keydown key s else s
  | Submit =>
      if modal pg && form pg
      then snd (on_submit {| defaultPrevented := false |} s)
      else s
  | Elapse ms => advance ms s
  | Timeout i =>
      match timers s !! i with
      | Some (due, tk) =>
          if due <=? now s then run_task pg tk (drop_timer i s) else s
      | None => s
      end
  end.

Definition run (pg : page) (evs : list event) (s : state) : state :=
  foldl (fun s ev => step pg ev s) s evs.

(** The opener an event records, if it opens the modal. *)
Definition opens (pg : page) (ev : event) : option trigger :=
  match ev with
  | TriggerClick t => if modal pg && trigger_present pg t then Some t else None
  | _ => None
  end.

(** Whether handling [ev] in state [s] calls [closeModal]. *)
Definition closes (pg : page) (s : state) (ev : event) : bool :=
  match ev with
  | CloseClick => modal pg && modalClose pg
  | OverlayClick => modal pg && modalOverlay pg
  | KeyDown key =>
      modal pg && bool_decide (key = "Escape")
      && bool_decide (modal_style s !! "display" = Some "flex")
  | Timeout i =>
      match timers s !! i with
      | Some (due, OpenPdfThenClose) => due <=? now s
      | _ => false
      end
  | _ => false
  end.

(** No event of [evs] closes the modal along the run from [s]. *)
Fixpoint stays_open (pg : page) (evs : list event) (s : state) : bool :=
  match evs with
  | [] => true
  | ev :: evs' => negb (closes pg s ev) && stays_open pg evs' (step pg ev s)
  end.

(** The opener of the last opening event of [evs], [t] if there is none. *)
Definition latest_opener (pg : page) (t : trigger) (evs : list event)
  : trigger :=
  foldl (fun t ev => default t (opens pg ev)) t evs.

Definition initial : state :=
  {| activeModalTrigger := None;
     modal_style := ∅;
     modal_attrs := ∅;
     body_style := ∅;
     activeElement := Elsewhere;
     now := 0;
     timers := [];
     log := [] |}.

End Modal.

(** ** Contact modal: a sample page *)

Section ModalSamples.

Import Modal.

Definition modal_page : page :=
  {| contactModalTrigger := true; leadMagnetTrigger := true;
     contactTrigger := true; modal := true; modalClose := true;
     modalOverlay := true; form := true; modal_has_input := true |}.

Definition modal_before : list event :=
  [TriggerClick ContactTrigger; Elapse 100; Timeout 0; CloseClick].

Definition modal_mid : list event :=
  [Elapse 40; TriggerClick ContactModalTrigger; Elapse 100; Timeout 0].

End ModalSamples.

(** ** Contact modal: what closing writes *)

Section ModalEffects.

Import Modal.

Definition pdf_path : string := "/neuroinclusive-interview-tips.pdf".

(** What [closeModal] appends to the log. *)
Definition close_effects (s : state) : list effect :=
  [StyleWrite ModalElement "display" "none";
   AttributeWrite ModalElement "aria-hidden" "true";
   StyleWrite BodyElement "overflow" ""] ++
  match activeModalTrigger s with
  | Some t => [FocusCall (Opener t)]
  | None => []
  end.

End ModalEffects.

(** ** Logo carousel *)

Module Carousel.

(** A child of the track: [key] is the identity of the node, [markup] what
    a deep clone copies. *)
Record logo : Type := { key : nat; markup : string }.

Record page : Type := {
  carousel : bool;
  track : bool;
  prefersReducedMotion : bool
}.

(** [children] is the live child collection of the track; [next_key] is the
    identity the next created node receives. *)
Record state : Type := {
  children : list logo;
  next_key : nat;
  track_style : gmap string string
}.

Definition set_track_style (property value : string) (s : state) : state :=
  {| children := children s;
     next_key := next_key s;
     track_style := assign property value (track_style s) |}.

(** [node.cloneNode(true)] *)
Definition cloneNode (l : logo) (s : state) : logo * state :=
  ({| key := next_key s; markup := markup l |},
   {| children := children s;
      next_key := S (next_key s);
      track_style := track_style s |}).

Definition appendChild (l : logo) (s : state) : state :=
  {| children := children s ++ [l];
     next_key := next_key s;
     track_style := track_style s |}.

(** The body of [for (let i = 0; i < logoCount; i++)], with [todo] the
    number of iterations left, [logoCount - i].  [logos[i]] reads the live
    collection; were it [undefined], calling [cloneNode] on it would throw. *)
Fixpoint clone_loop (todo i : nat) (s : state) : result state :=
  match todo with
  | O => Ok s
  | S todo' =>
      match children s !! i with
      | Some l =>
          let '(clone, s1) := cloneNode l s in
          clone_loop todo' (S i) (appendChild clone s1)
      | None => Throw
      end
  end.

Definition setupLogoCarousel (pg : page) (s : state) : result state :=
  if negb (carousel pg) || negb (track pg) then Ok s
  else
    let s :=
      if prefersReducedMotion pg then set_track_style "animation" "none" s
      else s in
    let logoCount := length (children s) in
    clone_loop logoCount 0 s.

Inductive event : Type :=
| MouseEnter
| MouseLeave
| FocusIn
| FocusOut
| MotionChange (matches : bool).

Definition step (pg : page) (ev : event) (s : state) : state :=
  if negb (carousel pg) || negb (track pg) then s
  else
    match ev with
    | MouseEnter | FocusIn => set_track_style "animationPlayState" "paused" s
    | MouseLeave | FocusOut => set_track_style "animationPlayState" "running" s
    | MotionChange matches =>
        if matches then set_track_style "animation" "none" s
        else set_track_style "animation" "" s
    end.

(** The clones of [ls], the first of them receiving identity [k]. *)
Definition clones (k : nat) (ls : list logo) : list logo :=
  imap (fun j l => {| key := k + j; markup := markup l |}) ls.

End Carousel.

(** ** Logo carousel: a sample strip *)

Section CarouselSamples.

Import Carousel.

Definition carousel_page : page :=
  {| carousel := true; track := true; prefersReducedMotion := false |}.

Definition three_logos : state :=
  {| children := [ {| key := 0; markup := "<img alt='A'>" |};
                   {| key := 1; markup := "<img alt='B'>" |};
                   {| key := 2; markup := "<img alt='C'>" |} ];
     next_key := 3;
     track_style := ∅ |}.

End CarouselSamples.

(** ** Strings of the page: UTF-16 code units *)

Module JsString.

(** A field's value, as JavaScript sees it: a sequence of code units. *)
Definition t : Type := list N.

(** An ASCII literal as a sequence of code units. *)
Definition of_string (s : string) : t :=
  N_of_ascii <$> list_ascii_of_string s.

(** [WhiteSpace] and [LineTerminator] of ECMAScript: what [trim] strips and
    what [\s] matches. *)
Definition is_space (c : N) : bool :=
  ((9 <=? c) && (c <=? 13) ||
   (c =? 32) || (c =? 160) || (c =? 5760) ||
   (8192 <=? c) && (c <=? 8202) ||
   (c =? 8232) || (c =? 8233) || (c =? 8239) || (c =? 8287) ||
   (c =? 12288) || (c =? 65279))%N.

Fixpoint trimStart (s : t) : t :=
  match s with
  | c :: s' => if is_space c then trimStart s' else s
  | [] => []
  end.

Definition trimEnd (s : t) : t := rev (trimStart (rev s)).

(** [String.prototype.trim] *)
Definition trim (s : t) : t := trimEnd (trimStart s).

(** A string is truthy when it is not empty. *)
Definition truthy (s : t) : bool :=
  match s with
  | [] => false
  | _ => true
  end.

End JsString.

(** ** Regular expressions without flags, matched against a whole string *)

Module Regex.

Inductive regex : Type :=
| Never
| Empty
| Class (accepts : N -> bool)
| Seq (r1 r2 : regex)
| Or (r1 r2 : regex)
| Star (r : regex).

(** [r+] *)
Definition Plus (r : regex) : regex := Seq r (Star r).

Fixpoint nullable (r : regex) : bool :=
  match r with
  | Never => false
  | Empty => true
  | Class _ => false
  | Seq r1 r2 => nullable r1 && nullable r2
  | Or r1 r2 => nullable r1 || nullable r2
  | Star _ => true
  end.

(** What is left to match after reading code unit [c]. *)
Fixpoint after (c : N) (r : regex) : regex :=
  match r with
  | Never | Empty => Never
  | Class accepts => if accepts c then Empty else Never
  | Seq r1 r2 =>
      if nullable r1 then Or (Seq (after c r1) r2) (after c r2)
      else Seq (after c r1) r2
  | Or r1 r2 => Or (after c r1) (after c r2)
  | Star r' => Seq (after c r') (Star r')
  end.

(** [/^r$/.test(s)] *)
Definition test (r : regex) (s : JsString.t) : bool :=
  nullable (foldl (fun r c => after c r) r s).

(** Denotation: the strings a regular expression matches. *)
Inductive matches : regex -> JsString.t -> Prop :=
| matches_empty : matches Empty []
| matches_class accepts c : accepts c = true -> matches (Class accepts) [c]
| matches_seq r1 r2 s1 s2 :
    matches r1 s1 -> matches r2 s2 -> matches (Seq r1 r2) (s1 ++ s2)
| matches_or_l r1 r2 s : matches r1 s -> matches (Or r1 r2) s
| matches_or_r r1 r2 s : matches r2 s -> matches (Or r1 r2) s
| matches_star_nil r : matches (Star r) []
| matches_star_cons r s1 s2 :
    matches r s1 -> matches (Star r) s2 -> matches (Star r) (s1 ++ s2).

End Regex.

(** ** The email pattern *)

Section EmailPattern.

Import JsString Regex.

(** [[^\s@]] *)
Definition not_space_or_at (c : N) : bool :=
  negb (is_space c || (c =? 64)%N).

(** [/^[^\s@]+@[^\s@]+\.[^\s@]+$/] *)
Definition emailRegex : regex :=
  Seq (Plus (Class not_space_or_at))
    (Seq (Class (N.eqb 64))
       (Seq (Plus (Class not_space_or_at))
          (Seq (Class (N.eqb 46))
             (Plus (Class not_space_or_at))))).

(** The shape [local@domain.tld]: a local part, [@], a domain, a dot and a
    last label, the three parts non-empty and free of white space and of
    [@]. *)
Definition local_at_domain_tld (s : JsString.t) : Prop :=
  exists loc dom tld : JsString.t,
    s = loc ++ [64%N] ++ dom ++ [46%N] ++ tld /\
    loc ≠ [] /\ dom ≠ [] /\ tld ≠ [] /\
    Forall (fun c => not_space_or_at c = true) (loc ++ dom ++ tld).

End EmailPattern.

(** ** The document as the form code sees it *)

Module Dom.

(** An element object.  [attrs] holds the content attributes ([id],
    [required], [class], [aria-*]); [type] and [value] are the properties of
    form controls; [parentNode] is the reference of the parent node, [None]
    for a node that has none; [inForm] tells whether the element lies inside
    the contact form. *)
Record element : Type := {
  tagName : string;
  type : string;
  value : JsString.t;
  attrs : gmap string string;
  style : gmap string string;
  textContent : string;
  parentNode : option nat;
  inForm : bool
}.

(** An element is in the document when it has a parent: the elements of the
    loaded page have one, a created element has none until it is appended,
    and [remove] takes it away. *)
Definition attached (e : element) : bool :=
  bool_decide (is_Some (parentNode e)).

(** Every node object the page has seen, a reference being an index.  The
    elements of the loaded page come in document order; an element made by
    [createElement] comes after all earlier ones, and an element taken out
    of the document keeps its place.

    The tree below an element is not modelled: [remove] and the assignment
    of [textContent] act on the element alone, which is what they do to the
    error elements the form code creates, these having no element children.
    The place of an appended element among the others is observable only
    through [getElementById] on elements that share an id. *)
Abbreviation dom := (list element).

(** What [document.createElement(tag)] returns. *)
Definition created (tag : string) : element :=
  {| tagName := tag; type := ""; value := []; attrs := ∅; style := ∅;
     textContent := ""; parentNode := None; inForm := false |}.

Definition get (k : nat) (d : dom) : element :=
  default (created "") (d !! k).

Definition update (k : nat) (f : element -> element) (d : dom) : dom :=
  alter f k d.

Definition with_attrs (f : gmap string string -> gmap string string)
    (e : element) : element :=
  {| tagName := tagName e; type := type e; value := value e;
     attrs := f (attrs e); style := style e; textContent := textContent e;
     parentNode := parentNode e; inForm := inForm e |}.

Definition with_style (f : gmap string string -> gmap string string)
    (e : element) : element :=
  {| tagName := tagName e; type := type e; value := value e;
     attrs := attrs e; style := f (style e); textContent := textContent e;
     parentNode := parentNode e; inForm := inForm e |}.

Definition with_text (t : string) (e : element) : element :=
  {| tagName := tagName e; type := type e; value := value e;
     attrs := attrs e; style := style e; textContent := t;
     parentNode := parentNode e; inForm := inForm e |}.

(** Attaching under a parent, or detaching with [None]. *)
Definition with_parent (p : option nat) (e : element) : element :=
  {| tagName := tagName e; type := type e; value := value e;
     attrs := attrs e; style := style e; textContent := textContent e;
     parentNode := p; inForm := inForm e |}.

Definition setAttribute (k : nat) (name v : string) (d : dom) : dom :=
  update k (with_attrs (insert name v)) d.

Definition removeAttribute (k : nat) (name : string) (d : dom) : dom :=
  update k (with_attrs (delete name)) d.

Definition hasAttribute (k : nat) (name : string) (d : dom) : bool :=
  bool_decide (is_Some (attrs (get k d) !! name)).

Definition setStyle (k : nat) (property v : string) (d : dom) : dom :=
  update k (with_style (assign property v)) d.

Definition setTextContent (k : nat) (t : string) (d : dom) : dom :=
  update k (with_text t) d.

(** The [id] property reflects the [id] attribute, [''] when absent. *)
Definition id (k : nat) (d : dom) : string :=
  default "" (attrs (get k d) !! "id").

Definition has_id (i : string) (e : element) : bool :=
  attached e && bool_decide (attrs e !! "id" = Some i).

(** Index of the first element that satisfies [p]. *)
Fixpoint find_index {A} (p : A -> bool) (l : list A) : option nat :=
  match l with
  | [] => None
  | x :: l' => if p x then Some O else S <$> find_index p l'
  end.

(** First attached element, in document order, whose id is [i]. *)
Definition getElementById (i : string) (d : dom) : option nat :=
  if bool_decide (i = "") then None else find_index (has_id i) d.

(** New element object, not attached. *)
Definition createElement (tag : string) (d : dom) : nat * dom :=
  (length d, d ++ [created tag]).

(** [parent.appendChild(child)] for a [child] that is not attached. *)
Definition appendChild (parent child : nat) (d : dom) : dom :=
  update child (with_parent (Some parent)) d.

(** [k.remove()] *)
Definition remove (k : nat) (d : dom) : dom :=
  update k (with_parent None) d.

(** Number of attached elements whose id is [i]. *)
Definition count_id (i : string) (d : dom) : nat :=
  length (List.filter (has_id i) d).

(** References of the elements satisfying [p], in document order. *)
Definition select (p : element -> bool) (d : dom) : list nat :=
  List.filter (fun k => p (get k d)) (seq 0 (length d)).

End Dom.

(** ** Contact-form validation *)

Module Form.
Import Dom.

Definition required_message : string := "This field is required.".
Definition email_message : string := "Please enter a valid email address.".

Definition errorId (field : nat) (d : dom) : string :=
  id field d +:+ "-error".

Definition clearFieldError (field : nat) (d : dom) : dom :=
  let d := removeAttribute field "aria-invalid" d in
  let d := setStyle field "borderColor" "" d in
  let d := removeAttribute field "aria-describedby" d in
  let errorId := id field d +:+ "-error" in
  match getElementById errorId d with
  | Some errorElement => remove errorElement d
  | None => d
  end.

Definition showFieldError (field : nat) (message : string) (d : dom)
  : result dom :=
  let d := setAttribute field "aria-invalid" "true" d in
  let d := setStyle field "borderColor" "var(--color-callout)" d in
  let errorId := id field d +:+ "-error" in
  '(errorElement, d) ←
    match getElementById errorId d with
    | Some errorElement => Ok (errorElement, d)
    | None =>
        let '(errorElement, d) := createElement "div" d in
        let d := setAttribute errorElement "id" errorId d in
        let d := setAttribute errorElement "class" "field-error" d in
        let d := setStyle errorElement "color" "var(--color-callout)" d in
        let d := setStyle errorElement "fontSize" "var(--font-size-sm)" d in
        let d := setStyle errorElement "marginTop" "var(--spacing-xs)" d in
        match parentNode (get field d) with
        | Some parent => Ok (errorElement, appendChild parent errorElement d)
        | None => Throw
        end
    end;
  let d := setTextContent errorElement message d in
  Ok (setAttribute field "aria-describedby" errorId d).

Definition validateField (field : nat) (d : dom) : result (dom * bool) :=
  let value := JsString.trim (value (get field d)) in
  let isRequired := hasAttribute field "required" d in
  let isValid := true in
  let errorMessage := "" in
  let d := clearFieldError field d in
  let '(isValid, errorMessage) :=
    if isRequired && negb (JsString.truthy value)
    then (false, required_message)
    else (isValid, errorMessage) in
  let '(isValid, errorMessage) :=
    if bool_decide (type (get field d) = "email") && JsString.truthy value
    then
      if negb (Regex.test emailRegex value)
      then (false, email_message)
      else (isValid, errorMessage)
    else (isValid, errorMessage) in
  d ← (if negb isValid then showFieldError field errorMessage d else Ok d);
  Ok (d, isValid).

Definition is_control (e : element) : bool :=
  bool_decide (tagName e = "input") || bool_decide (tagName e = "textarea").

(** [form.querySelectorAll('input, textarea')] *)
Definition controls (d : dom) : list nat :=
  select (fun e => attached e && inForm e && is_control e) d.

(** [form.querySelectorAll('input[required], textarea[required]')] *)
Definition required_controls (d : dom) : list nat :=
  select (fun e => attached e && inForm e && is_control e
                   && bool_decide (is_Some (attrs e !! "required"))) d.

(** [inputs.forEach(input => { if (!validateField(input)) isValid = false })] *)
Fixpoint forEach_validate (inputs : list nat) (isValid : bool) (d : dom)
  : result (dom * bool) :=
  match inputs with
  | [] => Ok (d, isValid)
  | input :: inputs' =>
      '(d, ok) ← validateField input d;
      forEach_validate inputs' (if negb ok then false else isValid) d
  end.

Definition validateForm (d : dom) : result (dom * bool) :=
  let inputs := required_controls d in
  let isValid := true in
  forEach_validate inputs isValid d.

Record submit_event : Type := { defaultPrevented : bool }.

Definition preventDefault (event : submit_event) : submit_event :=
  {| defaultPrevented := true |}.

(** The submit listener of the contact form. *)
Definition on_submit (event : submit_event) (d : dom)
  : result (submit_event * dom) :=
  '(d, isValid) ← validateForm d;
  if negb isValid then Ok (preventDefault event, d) else Ok (event, d).

Definition on_blur (input : nat) (d : dom) : result dom :=
  fst <$> validateField input d.

Definition on_input (input : nat) (d : dom) : result dom :=
  Ok (clearFieldError input d).

(** The field is flagged and points at an attached error element that
    holds [message]. *)
Definition shows_error (message : string) (field : nat) (d : dom) : bool :=
  bool_decide (attrs (get field d) !! "aria-invalid" = Some "true") &&
  bool_decide (attrs (get field d) !! "aria-describedby"
               = Some (errorId field d)) &&
  match getElementById (errorId field d) d with
  | Some e => bool_decide (textContent (get e d) = message)
  | None => false
  end.

(** Nothing of an error annotation is left on or for the field. *)
Definition no_error (field : nat) (d : dom) : Prop :=
  attrs (get field d) !! "aria-invalid" = None /\
  attrs (get field d) !! "aria-describedby" = None /\
  style (get field d) !! "borderColor" = None /\
  getElementById (errorId field d) d = None.

End Form.

(** ** Field annotations: the steps of showing and clearing *)

Section FieldSteps.

Import Dom Form.

(** What [clearFieldError] does to the field itself. *)
Definition unflag (e : element) : element :=
  with_attrs (delete "aria-describedby")
    (with_style (assign "borderColor" "")
       (with_attrs (delete "aria-invalid") e)).

(** What [showFieldError] first does to the field itself. *)
Definition flag (e : element) : element :=
  with_style (assign "borderColor" "var(--color-callout)")
    (with_attrs (insert "aria-invalid" "true") e).

(** What [showFieldError] last does to the field itself. *)
Definition describe (i : string) (e : element) : element :=
  with_attrs (insert "aria-describedby" i) e.

(** The error element as [showFieldError] builds it before attaching it. *)
Definition error_element (i : string) : element :=
  {| tagName := "div"; type := ""; value := [];
     attrs := <["class" := "field-error"]> (<["id" := i]> ∅);
     style := <["marginTop" := "var(--spacing-xs)"]>
                (<["fontSize" := "var(--font-size-sm)"]>
                   (<["color" := "var(--color-callout)"]> ∅));
     textContent := ""; parentNode := None; inForm := false |}.

(** The two ways [showFieldError] can complete. *)
Variant shown (field : nat) (message : string) (d d' : dom) : Prop :=
| shown_existing e :
    getElementById (errorId field d) d = Some e ->
    d' = update field (describe (errorId field d))
           (update e (with_text message) (update field flag d)) ->
    shown field message d d'
| shown_created p :
    getElementById (errorId field d) d = None ->
    parentNode (get field d) = Some p ->
    d' = update field (describe (errorId field d))
           (update field flag d ++
              [with_text message
                 (with_parent (Some p) (error_element (errorId field d)))]) ->
    shown field message d d'.

End FieldSteps.

(** ** Field validation: its outcomes *)

Section ValidationOutcome.

Import Dom Form JsString.

(** The three outcomes of a validation. *)
Variant validated (field : nat) (d : dom) : Prop :=
| validated_required d' :
    hasAttribute field "required" d = true ->
    trim (value (get field d)) = [] ->
    validateField field d = Ok (d', false) ->
    shows_error required_message field d' = true ->
    count_id (errorId field d) d' =
      Nat.max 1 (pred (count_id (errorId field d) d)) ->
    validated field d
| validated_email d' :
    type (get field d) = "email" ->
    trim (value (get field d)) ≠ [] ->
    Regex.test emailRegex (trim (value (get field d))) = false ->
    validateField field d = Ok (d', false) ->
    shows_error email_message field d' = true ->
    count_id (errorId field d) d' =
      Nat.max 1 (pred (count_id (errorId field d) d)) ->
    validated field d
| validated_ok :
    (hasAttribute field "required" d = true ->
     trim (value (get field d)) ≠ []) ->
    (type (get field d) = "email" ->
     trim (value (get field d)) ≠ [] ->
     Regex.test emailRegex (trim (value (get field d))) = true) ->
    validateField field d = Ok (clearFieldError field d, true) ->
    validated field d.

End ValidationOutcome.

(** ** Sample contact forms *)

Section SampleForms.

Import Dom Form JsString.

(** The document node: the parent of the topmost element. *)
Definition document_node : element := created "#document".

Definition form_element : element :=
  {| tagName := "form"; type := ""; value := []; attrs := ∅; style := ∅;
     textContent := ""; parentNode := Some 0%nat; inForm := false |}.

(** A control that is a child of the form. *)
Definition control (tag ty v : string) (a : gmap string string) : element :=
  {| tagName := tag; type := ty; value := of_string v; attrs := a;
     style := ∅; textContent := ""; parentNode := Some 1%nat;
     inForm := true |}.

(** A name, an email address and an optional message. *)
Definition sample_form : dom :=
  [ document_node;
    form_element;
    control "input" "text" "  " {["id" := "name"; "required" := ""]};
    control "input" "email" "a@b" {["id" := "email"; "required" := ""]};
    control "textarea" "textarea" "" {["id" := "message"]} ].

Definition name_field : nat := 2.
Definition email_field : nat := 3.
Definition message_field : nat := 4.

(** Two required fields that carry no id. *)
Definition anonymous_form : dom :=
  [ document_node;
    form_element;
    control "input" "text" "  " {["required" := ""]};
    control "input" "text" "Ada" {["required" := ""]} ].

Definition first_field : nat := 2.
Definition second_field : nat := 3.

End SampleForms.

(** ** Submission: terms of the statements *)

Section SubmitTerms.

Import Dom Form JsString.

(** The rules of [validateField] as a function of the element alone. *)
Definition passes (e : element) : bool :=
  let v := trim (value e) in
  negb (bool_decide (is_Some (attrs e !! "required")) && negb (truthy v)) &&
  negb (bool_decide (type e = "email") && truthy v
        && negb (Regex.test emailRegex v)).

(** What a validation reads of a field stays as it is. *)
Definition same_input (e e' : element) : Prop :=
  value e' = value e /\ type e' = type e /\
  attrs e' !! "required" = attrs e !! "required" /\
  attrs e' !! "id" = attrs e !! "id" /\
  parentNode e' = parentNode e.

(** Ids that keep the annotations of the fields apart: the fields are
    elements with a parent, no two of them share an id, and no id of one is
    the error id of another. *)
Definition separate (fields : list nat) (d : dom) : Prop :=
  (forall k, k ∈ fields ->
     (k < length d)%nat /\ is_Some (parentNode (get k d))) /\
  (forall j k, j ∈ fields -> k ∈ fields -> j ≠ k -> id j d ≠ id k d) /\
  (forall j k, j ∈ fields -> k ∈ fields -> id j d ≠ errorId k d).

Definition unchanged_inputs (fields : list nat) (d d' : dom) : Prop :=
  forall k, k ∈ fields -> same_input (get k d) (get k d').

End SubmitTerms.

(** ** A page without the navigation container *)

Section MissingContainer.

Import Nav.

(** A page that has the toggle and the menu but no [.hamburger-nav]
    container. *)
Definition page_without_container : page :=
  {| navToggle := true; navMenu := true; navigation := false;
     toggle_in_navigation := false; menu_has_link := true |}.

End MissingContainer.

(** ** Mobile navigation and header: further terms *)

Section NavScrollTerms.

Import Nav.

(** The menu carries its open class exactly when the flag says open. *)
Definition menu_shown (s : state) : Prop :=
  "nav-menu--open" ∈ menu_classes s <-> isMenuOpen s = true.

(** An activation of the toggle, by click or by touch. *)
Definition is_toggle (ev : event) : bool :=
  match ev with
  | ToggleClick | ToggleTouchEnd => true
  | _ => false
  end.

(** State after a sequence of events. *)
Definition nav_run (pg : page) (evs : list event) (s : state) : state :=
  foldl (fun s ev => after (dispatch pg ev s)) s evs.

(** Whether the document click listener finds the menu open when [ev]
    reaches it. *)
Definition reaches_open_document (ev : event) (s : state) : bool :=
  match ev with
  | ToggleClick => negb (isMenuOpen s)
  | DocumentClick _ => isMenuOpen s
  | _ => false
  end.

(** State after a sequence of scroll events and animation frames. *)
Definition scroll_run (evs : list Scroll.event) (s : Scroll.state)
  : Scroll.state :=
  foldl (fun s ev => Scroll.step ev s) s evs.

(** The frames at which a header update runs: those that follow at least
    one scroll event since the frame before.  [requested] tells whether an
    update is already requested when the sequence starts. *)
Fixpoint updating_frames (evs : list Scroll.event) (requested : bool)
  : list Scroll.frame :=
  match evs with
  | [] => []
  | Scroll.ScrollEvent :: evs' => updating_frames evs' true
  | Scroll.AnimationFrame f :: evs' =>
      if requested then f :: updating_frames evs' false
      else updating_frames evs' false
  end.

(** Whether an update is requested and has not run when the sequence
    ends. *)
Fixpoint awaiting_frame (evs : list Scroll.event) (requested : bool) : bool :=
  match evs with
  | [] => requested
  | Scroll.ScrollEvent :: evs' => awaiting_frame evs' true
  | Scroll.AnimationFrame _ :: evs' => awaiting_frame evs' false
  end.

Definition scroll_start : Scroll.state :=
  {| Scroll.lastScrollY := 0%Q; Scroll.ticking := false;
     Scroll.pending := 0; Scroll.nav_classes := {["hamburger-nav"]} |}.

End NavScrollTerms.

(** ** Contact modal: further terms *)

Section ModalTerms.

Import Modal.

(** The modal as [openModal] leaves it. *)
Definition opened (s : state) : Prop :=
  is_Some (activeModalTrigger s) /\
  modal_style s !! "display" = Some "flex" /\
  modal_attrs s !! "aria-hidden" = Some "false" /\
  body_style s !! "overflow" = Some "hidden".

(** The modal as [closeModal] leaves it. *)
Definition closed (s : state) : Prop :=
  activeModalTrigger s = None /\
  modal_style s !! "display" = Some "none" /\
  modal_attrs s !! "aria-hidden" = Some "true" /\
  body_style s !! "overflow" = None.

(** Either opened, or closed with the keyboard focus outside the modal. *)
Definition coherent (s : state) : Prop :=
  opened s \/ (closed s /\ activeElement s ≠ FirstInput).

Definition is_timeout (ev : event) : bool :=
  match ev with
  | Timeout _ => true
  | _ => false
  end.

(** The three writes of [closeModal]. *)
Definition close_writes : list effect :=
  [StyleWrite ModalElement "display" "none";
   AttributeWrite ModalElement "aria-hidden" "true";
   StyleWrite BodyElement "overflow" ""].

End ModalTerms.

(** ** Contact form: further terms *)

Section FormTerms.

Import Dom JsString.

Definition with_value (v : JsString.t) (e : element) : element :=
  {| tagName := tagName e; type := type e; value := v;
     attrs := attrs e; style := style e; textContent := textContent e;
     parentNode := parentNode e; inForm := inForm e |}.

(** The user edits the control: its [value] becomes [v]. *)
Definition set_value (k : nat) (v : JsString.t) (d : dom) : dom :=
  update k (with_value v) d.

(** The code unit of [@]. *)
Definition at_sign : N := 64.

End FormTerms.

(** ** Anchor links and cards *)

Module Accessibility.
Import Dom.

(** [s.substring(1)].  Attribute values are held as byte strings; the
    listener below is registered on links whose [href] starts with [#], one
    byte and one code unit, so dropping the first byte is dropping the
    first code unit. *)
Definition substring1 (s : string) : string :=
  match s with
  | String _ s' => s'
  | EmptyString => ""
  end.

Record ui_event : Type := { defaultPrevented : bool }.

Definition preventDefault (event : ui_event) : ui_event :=
  {| defaultPrevented := true |}.

(** Calls made on elements, in program order; [FollowLink] is the default
    action of a click on a link. *)
Inductive call : Type :=
| ScrollIntoView (target : nat) (behavior block : string)
| Focus (target : nat) (preventScroll : bool)
| FollowLink (link : nat).

(** [document.querySelectorAll('a[href^="#"]')] *)
Definition anchorLinks (d : dom) : list nat :=
  select (fun e => attached e && bool_decide (tagName e = "a")
                   && match attrs e !! "href" with
                      | Some href => String.prefix "#" href
                      | None => false
                      end) d.

(** The click listener of an anchor link; [this] is the link, and
    [prefersReducedMotion] what the media query answers at the time of the
    click.  [getAttribute] returns [null] for a missing attribute, on which
    [substring] throws. *)
Definition on_anchor_click (prefersReducedMotion : bool) (this : nat)
    (event : ui_event) (d : dom) : result (ui_event * list call) :=
  match attrs (get this d) !! "href" with
  | None => Throw
  | Some href =>
      let targetId := substring1 href in
      match getElementById targetId d with
      | Some targetElement =>
          Ok (preventDefault event,
              [ScrollIntoView targetElement
                 (if prefersReducedMotion then "auto" else "smooth") "start";
               Focus targetElement true])
      | None => Ok (event, [])
      end
  end.

(** [link.click()]: a fresh click event reaches the listener of the link,
    if [setupAccessibilityFeatures] gave it one ([anchors] are the links it
    selected); an error thrown by the listener is reported and goes no
    further; unless the event was cancelled, the link is followed.  The
    click listeners of the other features are modelled with them. *)
Definition click (anchors : list nat) (prefersReducedMotion : bool)
    (link : nat) (d : dom) : list call :=
  let fresh := {| defaultPrevented := false |} in
  let '(event, calls) :=
    if bool_decide (link ∈ anchors) then
      match on_anchor_click prefersReducedMotion link fresh d with
      | Ok r => r
      | Throw => (fresh, [])
      end
    else (fresh, []) in
  calls ++ (if defaultPrevented event then [] else [FollowLink link]).

(** The keydown listener of a card; [link] is [card.querySelector('a')]. *)
Definition on_card_keydown (anchors : list nat) (prefersReducedMotion : bool)
    (link : nat) (key : string) (event : ui_event) (d : dom)
  : ui_event * list call :=
  if bool_decide (key = "Enter") || bool_decide (key = " ")
  then (preventDefault event, click anchors prefersReducedMotion link d)
  else (event, []).

(** A card gets the listener only if it holds a link. *)
Definition card_keydown (anchors : list nat) (prefersReducedMotion : bool)
    (link : option nat) (key : string) (event : ui_event) (d : dom)
  : ui_event * list call :=
  match link with
  | Some link =>
      on_card_keydown anchors prefersReducedMotion link key event d
  | None => (event, [])
  end.

End Accessibility.

(** ** Anchor links and cards: a sample page *)

Section AccessibilitySamples.

Import Dom Accessibility.

Definition page_element (tag : string) (a : gmap string string) : element :=
  {| tagName := tag; type := ""; value := []; attrs := a; style := ∅;
     textContent := ""; parentNode := Some 0%nat; inForm := false |}.

(** Links to a section that exists, to the top of the page, to a section
    that does not exist and to another page, and the section. *)
Definition linked_page : dom :=
  [ document_node;
    page_element "a" {["href" := "#about"]};
    page_element "a" {["href" := "#"]};
    page_element "a" {["href" := "#missing"]};
    page_element "a" {["href" := "/speaking/"]};
    page_element "section" {["id" := "about"]} ].

End AccessibilitySamples.

(** * Proofs *)

(** ** Mobile navigation: the flag and the exposed state agree *)

Section NavSync.

Import Nav.

Lemma toggle_in_sync pg s : in_sync (toggleMobileMenu pg s).
Proof.
  unfold in_sync, aria_expanded, toggleMobileMenu.
  destruct (isMenuOpen s); simpl; by rewrite lookup_insert_eq.
Qed.

Lemma close_in_sync s : in_sync (closeMobileMenu s).
Proof.
  unfold in_sync, aria_expanded, closeMobileMenu; simpl.
  by rewrite lookup_insert_eq.
Qed.

Lemma focus_toggle_in_sync s : in_sync s -> in_sync (focus_toggle s).
Proof. done. Qed.

Lemma tidy_toggle pg : tidy (on_toggle_click pg).
Proof. intros s s' [= <-]. right. apply toggle_in_sync. Qed.

Lemma tidy_document_click pg inside : tidy (on_document_click pg inside).
Proof.
  intros s s'. unfold on_document_click.
  destruct (isMenuOpen s), (navigation pg), inside; simpl; intros [= <-];
    (by left) || (right; apply close_in_sync).
Qed.

Lemma tidy_keydown key : tidy (on_keydown key).
Proof.
  intros s s'. unfold on_keydown.
  destruct (_ && _); intros [= <-]; [right | by left].
  apply focus_toggle_in_sync, close_in_sync.
Qed.

Lemma tidy_resize w : tidy (on_resize w).
Proof.
  intros s s'. unfold on_resize.
  destruct (_ && _); intros [= <-]; [right | by left].
  apply close_in_sync.
Qed.

Lemma listeners_tidy pg ev : Forall tidy (listeners pg ev).
Proof.
  unfold listeners. destruct (setupMobileNavigation pg); [|constructor].
  destruct ev; repeat apply Forall_cons_2; try apply Forall_nil_2;
    auto using tidy_toggle, tidy_document_click, tidy_keydown, tidy_resize.
Qed.

Lemma run_listeners_tidy ls s :
  Forall tidy ls ->
  after (run_listeners ls s) = s \/ in_sync (after (run_listeners ls s)).
Proof.
  intros Hls. revert s. induction Hls as [|l ls Hl _ IH]; intros s; simpl.
  - by left.
  - destruct (l s) as [s'|] eqn:E; simpl; [|apply IH].
    destruct (Hl _ _ E) as [->|Hs']; [apply IH|].
    destruct (IH s') as [->|H]; by right.
Qed.

Lemma dispatch_tidy pg ev s :
  after (dispatch pg ev s) = s \/ in_sync (after (dispatch pg ev s)).
Proof. apply run_listeners_tidy, listeners_tidy. Qed.

Lemma dispatch_preserves pg ev s :
  in_sync s -> in_sync (after (dispatch pg ev s)).
Proof. intros H. by destruct (dispatch_tidy pg ev s) as [->|]. Qed.

Lemma trace_in_sync pg evs s :
  in_sync s -> Forall in_sync (trace pg evs s).
Proof.
  revert s. induction evs as [|ev evs IH]; intros s H; simpl; constructor.
  - by apply dispatch_preserves.
  - by apply IH, dispatch_preserves.
Qed.

Lemma run_listeners_preserves ls s :
  Forall tidy ls -> in_sync s -> in_sync (after (run_listeners ls s)).
Proof.
  intros Hls H. by destruct (run_listeners_tidy ls s Hls) as [->|].
Qed.

Lemma fires_in_sync pg s ev :
  setupMobileNavigation pg = true -> navigation pg = true ->
  fires s ev = true -> in_sync (after (dispatch pg ev s)).
Proof.
  intros Hsetup Hnav Hfire. unfold dispatch, listeners. rewrite Hsetup.
  destruct ev as [| |inside|key|w]; simpl in *.
  - apply (run_listeners_preserves [_]).
    + apply Forall_cons_2; [apply tidy_document_click | apply Forall_nil_2].
    + apply toggle_in_sync.
  - apply toggle_in_sync.
  - unfold on_document_click. rewrite Hnav.
    apply andb_prop in Hfire as [-> ->]. simpl. apply close_in_sync.
  - unfold on_keydown. rewrite Hfire. simpl.
    apply focus_toggle_in_sync, close_in_sync.
  - unfold on_resize. rewrite Hfire. simpl. apply close_in_sync.
Qed.

Lemma all_fire_in_sync pg evs s :
  setupMobileNavigation pg = true -> navigation pg = true ->
  all_fire pg evs s = true -> Forall in_sync (trace pg evs s).
Proof.
  intros Hsetup Hnav. destruct evs as [|ev evs]; simpl; [constructor|].
  intros [Hev _]%andb_prop. constructor.
  - by apply fires_in_sync.
  - by apply trace_in_sync, fires_in_sync.
Qed.

(** C1.  Along every sequence of navigation events the [aria-expanded]
    attribute of the toggle equals the [isMenuOpen] flag after each event:
    this holds from any state when the events are the ones that act (toggle
    activation, outside click, Escape or desktop resize while open), and from
    a state in which both agree for arbitrary events.  Moreover an event that
    changes the flag or the attribute leaves the two in agreement. *)
Theorem nav_aria_expanded_tracks_flag (pg : page) (s : state)
    (evs : list event) :
  in_sync s \/
  (setupMobileNavigation pg = true /\ navigation pg = true /\
   all_fire pg evs s = true) ->
  Forall in_sync (trace pg evs s) /\
  (forall s1 ev,
      let s2 := after (dispatch pg ev s1) in
      isMenuOpen s2 <> isMenuOpen s1 \/ aria_expanded s2 <> aria_expanded s1 ->
      in_sync s2).
Proof.
  intros H. split.
  - destruct H as [H|(Hsetup & Hnav & Hfire)].
    + by apply trace_in_sync.
    + by apply all_fire_in_sync.
  - intros s1 ev s2 Hchg. subst s2.
    destruct (dispatch_tidy pg ev s1) as [E|]; [|done].
    rewrite E in Hchg. by destruct Hchg.
Qed.

Lemma nav_aria_expanded_tracks_flag_witness :
  (setupMobileNavigation nav_page = true /\ navigation nav_page = true /\
   all_fire nav_page nav_events (initial ∅ ∅) = true) /\
  Forall in_sync (trace nav_page nav_events (initial ∅ ∅)).
Proof.
  assert (H : setupMobileNavigation nav_page = true /\
              navigation nav_page = true /\
              all_fire nav_page nav_events (initial ∅ ∅) = true)
    by (split; [|split]; vm_compute; reflexivity).
  split; [exact H|].
  exact (proj1 (nav_aria_expanded_tracks_flag nav_page (initial ∅ ∅)
                  nav_events (or_intror H))).
Defined.

End NavSync.

(** ** Scroll-reactive header: when the header hides *)

Section ScrollHeader.

Import Scroll.

Lemma gtb_lt x y : gtb x y = true <-> (y < x)%Q.
Proof.
  unfold gtb. rewrite negb_true_iff, <- not_true_iff_false, Qle_bool_iff.
  split; [apply Qnot_le_lt | apply Qlt_not_le].
Qed.

Lemma updateNavigation_hidden f s :
  hidden (updateNavigation f s) <->
  (inject_Z (offsetHeight f) < scrollY f)%Q /\ (lastScrollY s < scrollY f)%Q.
Proof.
  unfold hidden, updateNavigation; simpl.
  rewrite <- !gtb_lt.
  destruct (gtb (scrollY f) (inject_Z (offsetHeight f)));
    destruct (gtb (scrollY f) (lastScrollY s)); simpl;
    rewrite ?elem_of_union, ?elem_of_difference, ?elem_of_singleton;
    intuition congruence.
Qed.

Lemma sample_snoc fs f s :
  sample (fs ++ [f]) s = updateNavigation f (sample fs s).
Proof. unfold sample. by rewrite foldl_app. Qed.

Lemma sample_lastScrollY fs s :
  lastScrollY (sample fs s) = previous_offset fs s.
Proof.
  unfold previous_offset.
  induction fs as [|f fs IH] using rev_ind; [done|].
  rewrite sample_snoc, fmap_app. simpl.
  by rewrite List.last_last.
Qed.

(** C4.  After the header update of any sampled frame the navigation
    carries the [hidden] class exactly when the sampled offset exceeds the
    hero's height and exceeds the offset of the previously sampled frame; at
    or below the hero height, and on every frame that does not move down,
    the class is absent. *)
Theorem header_hidden_iff_down_past_hero (fs : list frame) (f : frame)
    (s : state) :
  let s' := sample (fs ++ [f]) s in
  (hidden s' <->
     (inject_Z (offsetHeight f) < scrollY f)%Q /\
     (previous_offset fs s < scrollY f)%Q) /\
  ((scrollY f <= inject_Z (offsetHeight f))%Q -> "hidden" ∉ nav_classes s') /\
  ((scrollY f <= previous_offset fs s)%Q -> "hidden" ∉ nav_classes s') /\
  lastScrollY s' = scrollY f.
Proof.
  intros s'. subst s'. rewrite sample_snoc.
  pose proof (updateNavigation_hidden f (sample fs s)) as H.
  rewrite sample_lastScrollY in H. unfold hidden in *.
  split; [exact H|]. split; [|split; [|done]].
  - intros Hle [Hlt _]%H. by apply Qlt_not_le in Hlt.
  - intros Hle [_ Hlt]%H. by apply Qlt_not_le in Hlt.
Qed.

(** A frame runs the header update that is queued, if any. *)
Lemma step_frame f s :
  step (AnimationFrame f) s =
  match pending s with
  | 0%nat => clear_pending s
  | 1%nat => updateNavigation f (clear_pending s)
  | S (S n) => run_callbacks n f
                 (updateNavigation f (updateNavigation f (clear_pending s)))
  end.
Proof. simpl. by destruct (pending s) as [|[|n]]. Qed.

(** The animation-frame callback queue never holds more than one header
    update: scroll events between two frames are coalesced. *)
Lemma step_pending_bounded ev s :
  (pending s <= (if ticking s then 1 else 0))%nat ->
  (pending (step ev s) <= (if ticking (step ev s) then 1 else 0))%nat.
Proof.
  intros H. destruct ev as [|f]; simpl.
  - unfold onScroll. destruct (ticking s) eqn:E; simpl; rewrite ?E; lia.
  - destruct (pending s) as [|[|n]]; simpl.
    + lia.
    + lia.
    + destruct (ticking s); lia.
Qed.

End ScrollHeader.

(** ** Contact modal: focus returns to the opener *)

Section ModalFocus.

Import Modal.

Lemma closeModal_trigger s : activeModalTrigger (closeModal s) = None.
Proof.
  unfold closeModal; simpl. by destruct (activeModalTrigger s) eqn:E.
Qed.

Lemma closeModal_focus s :
  activeElement (closeModal s) =
  match activeModalTrigger s with
  | Some t => Opener t
  | None => activeElement s
  end.
Proof.
  unfold closeModal; simpl. by destruct (activeModalTrigger s) eqn:E.
Qed.

Lemma openModal_trigger t s : activeModalTrigger (openModal t s) = Some t.
Proof. done. Qed.

Lemma run_task_focus_trigger pg s :
  activeModalTrigger (run_task pg FocusFirstInput s) = activeModalTrigger s.
Proof. simpl. by destruct (modal_has_input pg). Qed.

(** Only [openModal] and [closeModal] write the recorded opener. *)
Lemma step_trigger pg ev s :
  activeModalTrigger (step pg ev s) =
  match opens pg ev with
  | Some t => Some t
  | None => if closes pg s ev then None else activeModalTrigger s
  end.
Proof.
  destruct ev as [t| | |key| |ms|i]; unfold step, opens, closes.
  - by destruct (modal pg), (trigger_present pg t).
  - destruct (modal pg), (modalClose pg); simpl;
      done || apply closeModal_trigger.
  - destruct (modal pg), (modalOverlay pg); simpl;
      done || apply closeModal_trigger.
  - unfold on_keydown. destruct (modal pg); simpl; [|done].
    destruct (_ && _); [apply closeModal_trigger|done].
  - by destruct (modal pg), (form pg).
  - done.
  - destruct (timers s !! i) as [[due [|]]|]; [| |done].
    + destruct (due <=? now s); [|done].
      by rewrite run_task_focus_trigger.
    + destruct (due <=? now s); [|done]. apply closeModal_trigger.
Qed.

(** A closing event runs [closeModal] as the last thing it does, on a state
    that still records the same opener. *)
Lemma step_closes pg ev s :
  closes pg s ev = true ->
  exists s1, step pg ev s = closeModal s1 /\
             activeModalTrigger s1 = activeModalTrigger s /\
             activeElement s1 = activeElement s.
Proof.
  destruct ev as [t| | |key| |ms|i]; unfold step, closes; try done.
  - intros ->. by exists s.
  - intros ->. by exists s.
  - unfold on_keydown. intros [[-> ->]%andb_prop ->]%andb_prop. by exists s.
  - destruct (timers s !! i) as [[due [|]]|]; try done.
    intros ->. by eexists.
Qed.

Lemma stays_open_trigger pg evs s t :
  activeModalTrigger s = Some t ->
  stays_open pg evs s = true ->
  activeModalTrigger (run pg evs s) = Some (latest_opener pg t evs).
Proof.
  revert s t. induction evs as [|ev evs IH]; intros s t Ht; simpl; [done|].
  intros [Hev Hrest]%andb_prop. apply negb_true_iff in Hev.
  apply IH; [|done].
  rewrite step_trigger, Hev. by destruct (opens pg ev).
Qed.

Lemma run_app pg evs1 evs2 s :
  run pg (evs1 ++ evs2) s = run pg evs2 (run pg evs1 s).
Proof. apply foldl_app. Qed.


Local Abbreviation modal_s1 :=
  (run modal_page (modal_before ++ [TriggerClick LeadMagnetTrigger]) initial).

Local Abbreviation modal_s2 := (run modal_page modal_mid modal_s1).


Example modal_latest_opener_is_second :
  latest_opener modal_page LeadMagnetTrigger modal_mid = ContactModalTrigger.
Proof. reflexivity. Qed.

End ModalFocus.

(** ** Contact modal: submission of the embedded form *)

Section ModalSubmit.

Import Modal.

Lemma closeModal_log s : log (closeModal s) = log s ++ close_effects s.
Proof.
  unfold closeModal, close_effects; simpl.
  destruct (activeModalTrigger s); simpl; by rewrite <- !app_assoc.
Qed.

Lemma closeModal_display s :
  modal_style (closeModal s) !! "display" = Some "none".
Proof.
  unfold closeModal; simpl.
  destruct (activeModalTrigger s); simpl; unfold assign; simpl;
    by rewrite lookup_insert_eq.
Qed.

(** C8.  The listener of the embedded subscription form leaves the submit
    event as it found it (never cancelled by it), performs nothing at once
    and schedules one deferred action 1000 ms ahead.  That action cannot run
    before its time; when it runs, in whatever state the page then is and
    without any further input, it first opens the document in a new browsing
    context and then closes the modal. *)
Theorem subscribe_submit_defers_document_then_close (pg : page)
    (event : submit_event) (s : state) :
  let '(event', s1) := on_submit event s in
  event' = event /\
  timers s1 = timers s ++ [(now s + 1000, OpenPdfThenClose)] /\
  log s1 = log s /\
  modal_style s1 = modal_style s /\
  activeModalTrigger s1 = activeModalTrigger s /\
  (forall (s2 : state) (i : nat) (due : Z),
      timers s2 !! i = Some (due, OpenPdfThenClose) ->
      let s3 := step pg (Timeout i) s2 in
      (now s2 < due -> s3 = s2) /\
      (due <= now s2 ->
         log s3 = log s2 ++ WindowOpen pdf_path "_blank" :: close_effects s2 /\
         modal_style s3 !! "display" = Some "none" /\
         activeModalTrigger s3 = None /\
         timers s3 = delete i (timers s2))).
Proof.
  simpl. do 5 (split; [done|]).
  intros s2 i due Hi. rewrite Hi. split.
  - intros Hlt. by apply Z.leb_gt in Hlt as ->.
  - intros Hle. apply Z.leb_le in Hle as ->.
    unfold run_task.
    rewrite closeModal_log, closeModal_display, closeModal_trigger.
    simpl. rewrite <- app_assoc. repeat split.
    unfold closeModal; simpl. by destruct (activeModalTrigger s2).
Qed.

(** A submission followed by a second of waiting. *)
Example subscribe_submit_run :
  log (run modal_page
         [TriggerClick LeadMagnetTrigger; Submit; Elapse 999; Timeout 1;
          Elapse 1; Timeout 1] initial) =
  [StyleWrite ModalElement "display" "flex";
   AttributeWrite ModalElement "aria-hidden" "false";
   StyleWrite BodyElement "overflow" "hidden";
   WindowOpen pdf_path "_blank";
   StyleWrite ModalElement "display" "none";
   AttributeWrite ModalElement "aria-hidden" "true";
   StyleWrite BodyElement "overflow" "";
   FocusCall (Opener LeadMagnetTrigger)].
Proof. vm_compute. reflexivity. Qed.

End ModalSubmit.

(** ** Logo carousel: the strip is duplicated once *)

Section CarouselClone.

Import Carousel.

Lemma clones_cons k l ls :
  clones k (l :: ls) = {| key := k; markup := markup l |} :: clones (S k) ls.
Proof.
  unfold clones. simpl. rewrite Nat.add_0_r. f_equal.
  apply imap_ext. intros j x _. simpl. f_equal. lia.
Qed.

Lemma clones_length k ls : length (clones k ls) = length ls.
Proof. apply length_imap. Qed.

Lemma clones_markup k ls : markup <$> clones k ls = markup <$> ls.
Proof.
  revert k. induction ls as [|l ls IH]; intros k; [done|].
  rewrite clones_cons. simpl. by rewrite IH.
Qed.

Lemma clones_key k ls : key <$> clones k ls = seq k (length ls).
Proof.
  revert k. induction ls as [|l ls IH]; intros k; [done|].
  rewrite clones_cons. simpl. by rewrite IH.
Qed.

(** Loop invariant: after the iterations done so far the track holds the
    original strip followed by the clones made so far. *)
Lemma clone_loop_spec (orig : list logo) (sty : gmap string string) :
  forall (todo i : nat) (made : list logo) (k : nat),
    (i + todo = length orig)%nat ->
    clone_loop todo i
      {| children := orig ++ made; next_key := k; track_style := sty |} =
    Ok {| children := orig ++ made ++ clones k (drop i orig);
          next_key := (k + todo)%nat;
          track_style := sty |}.
Proof.
  induction todo as [|todo IH]; intros i made k Hlen; simpl.
  - rewrite drop_ge by lia. unfold clones; simpl.
    by rewrite app_nil_r, Nat.add_0_r.
  - assert (Hi : (i < length orig)%nat) by lia.
    destruct (lookup_lt_is_Some_2 orig i Hi) as [l Hl].
    rewrite lookup_app_l, Hl by done.
    unfold appendChild; simpl. rewrite <- app_assoc.
    rewrite IH by lia.
    rewrite (drop_S _ _ _ Hl), clones_cons, <- app_assoc. simpl.
    do 2 f_equal. lia.
Qed.

(** C9.  When the carousel and its track exist, setup completes and
    duplicates the strip once: the track ends with twice as many children,
    the first half being the original children untouched and the second half
    their clones in the same order (same markup, fresh identities). *)
Theorem carousel_setup_duplicates_strip_once (pg : page) (s : state) :
  carousel pg = true -> track pg = true ->
  let n := length (children s) in
  exists s',
    setupLogoCarousel pg s = Ok s' /\
    children s' = children s ++ clones (next_key s) (children s) /\
    length (children s') = (2 * n)%nat /\
    take n (children s') = children s /\
    markup <$> drop n (children s') = markup <$> children s /\
    key <$> drop n (children s') = seq (next_key s) n.
Proof.
  intros Hc Ht n. unfold setupLogoCarousel. rewrite Hc, Ht. simpl.
  set (s0 := if prefersReducedMotion pg
             then set_track_style "animation" "none" s else s).
  assert (Hch : children s0 = children s)
    by (subst s0; by destruct (prefersReducedMotion pg)).
  assert (Hk : next_key s0 = next_key s)
    by (subst s0; by destruct (prefersReducedMotion pg)).
  pose proof (clone_loop_spec (children s0) (track_style s0)
                (length (children s0)) 0 [] (next_key s0) eq_refl) as H.
  rewrite app_nil_r, drop_0 in H. simpl in H.
  destruct s0 as [ch k sty]; simpl in *. subst ch k.
  eexists. split; [exact H|]. simpl. subst n.
  split; [done|]. split.
  { rewrite length_app, clones_length. lia. }
  split; [by rewrite take_app_length|].
  rewrite drop_app_length. split; [apply clones_markup|apply clones_key].
Qed.

Lemma carousel_setup_duplicates_strip_once_witness :
  (carousel carousel_page = true /\ track carousel_page = true) /\
  exists s',
    setupLogoCarousel carousel_page three_logos = Ok s' /\
    children s' =
      children three_logos ++ clones (next_key three_logos)
                                (children three_logos) /\
    length (children s') = (2 * length (children three_logos))%nat /\
    take (length (children three_logos)) (children s') =
      children three_logos /\
    markup <$> drop (length (children three_logos)) (children s') =
      markup <$> children three_logos /\
    key <$> drop (length (children three_logos)) (children s') =
      seq (next_key three_logos) (length (children three_logos)).
Proof.
  split; [split; reflexivity|].
  exact (carousel_setup_duplicates_strip_once carousel_page three_logos
           eq_refl eq_refl).
Defined.

Example carousel_three_logos :
  children <$> setupLogoCarousel carousel_page three_logos =
  Ok [ {| key := 0; markup := "<img alt='A'>" |};
       {| key := 1; markup := "<img alt='B'>" |};
       {| key := 2; markup := "<img alt='C'>" |};
       {| key := 3; markup := "<img alt='A'>" |};
       {| key := 4; markup := "<img alt='B'>" |};
       {| key := 5; markup := "<img alt='C'>" |} ].
Proof. vm_compute. reflexivity. Qed.

End CarouselClone.

(** ** The pattern and [trim] on examples *)

Section EmailExamples.

Import JsString Regex.

Example email_a_b_co : test emailRegex (of_string "a@b.co") = true.
Proof. vm_compute. reflexivity. Qed.

Example email_a_b : test emailRegex (of_string "a@b") = false.
Proof. vm_compute. reflexivity. Qed.

Example email_dots : test emailRegex (of_string "first.last@mail.example.org") = true.
Proof. vm_compute. reflexivity. Qed.

Example email_space : test emailRegex (of_string "a b@c.de") = false.
Proof. vm_compute. reflexivity. Qed.

Example trim_example :
  trim (of_string "  a@b.co ") = of_string "a@b.co" /\
  trim [160; 9; 10; 65279]%N = [].
Proof. split; vm_compute; reflexivity. Qed.

End EmailExamples.

(** ** The matcher agrees with the denotation *)

Section RegexFacts.

Import JsString Regex.

Lemma matches_seq_inv r1 r2 s :
  matches (Seq r1 r2) s <->
  exists s1 s2, s = s1 ++ s2 /\ matches r1 s1 /\ matches r2 s2.
Proof.
  split.
  - inversion 1; subst. by eexists _, _.
  - intros (s1 & s2 & -> & H1 & H2). by constructor.
Qed.

Lemma matches_class_inv p s :
  matches (Class p) s <-> exists c, s = [c] /\ p c = true.
Proof.
  split.
  - inversion 1; subst. by eexists.
  - intros (c & -> & H). by constructor.
Qed.

Lemma matches_or_inv r1 r2 s :
  matches (Or r1 r2) s <-> matches r1 s \/ matches r2 s.
Proof.
  split.
  - inversion 1; subst; auto.
  - intros [H|H]; [by apply matches_or_l|by apply matches_or_r].
Qed.

Lemma matches_never s : ~ matches Never s.
Proof. inversion 1. Qed.

Lemma matches_empty_inv s : matches Empty s <-> s = [].
Proof. split; [by inversion 1|intros ->; constructor]. Qed.

Lemma nullable_matches r : nullable r = true <-> matches r [].
Proof.
  split.
  - induction r as [| |p|r1 IH1 r2 IH2|r1 IH1 r2 IH2|r IH]; simpl;
      try done.
    + constructor.
    + intros [H1 H2]%andb_prop. apply (matches_seq r1 r2 [] []); auto.
    + intros [H|H]%orb_prop; [apply matches_or_l|apply matches_or_r]; auto.
    + constructor.
  - intros H. remember [] as s eqn:Hs.
    induction H as [|p c Hp|r1 r2 s1 s2 H1 IH1 H2 IH2|r1 r2 s H IH
                   |r1 r2 s H IH|r|r s1 s2 H1 IH1 H2 IH2]; simpl; try done.
    + apply app_eq_nil in Hs as [-> ->]. by rewrite IH1, IH2.
    + by rewrite IH.
    + rewrite IH by done. apply orb_true_r.
Qed.

Lemma after_sound c r s : matches (after c r) s -> matches r (c :: s).
Proof.
  revert s. induction r as [| |p|r1 IH1 r2 IH2|r1 IH1 r2 IH2|r IH];
    intros s; simpl.
  - by intros ?%matches_never.
  - by intros ?%matches_never.
  - destruct (p c) eqn:E; [|by intros ?%matches_never].
    intros ->%matches_empty_inv. by constructor.
  - assert (Hleft : matches (Seq (after c r1) r2) s ->
                    matches (Seq r1 r2) (c :: s)).
    { intros (s1 & s2 & -> & H1 & H2)%matches_seq_inv.
      apply (matches_seq r1 r2 (c :: s1) s2); auto. }
    destruct (nullable r1) eqn:E; [|done].
    intros [H|H]%matches_or_inv; [auto|].
    apply (matches_seq r1 r2 [] (c :: s)); [by apply nullable_matches|auto].
  - intros [H|H]%matches_or_inv;
      [apply matches_or_l|apply matches_or_r]; auto.
  - intros (s1 & s2 & -> & H1 & H2)%matches_seq_inv.
    apply (matches_star_cons r (c :: s1) s2); auto.
Qed.

Lemma after_complete c r s : matches r (c :: s) -> matches (after c r) s.
Proof.
  intros H. remember (c :: s) as cs eqn:Hcs. revert s Hcs.
  induction H as [|p c' Hp|r1 r2 s1 s2 H1 IH1 H2 IH2|r1 r2 s' H IH
                 |r1 r2 s' H IH|r|r s1 s2 H1 IH1 H2 IH2];
    intros s Hcs; simpl; try done.
  - injection Hcs as -> <-. rewrite Hp. constructor.
  - destruct s1 as [|c1 s1]; simpl in Hcs.
    + subst s2. apply nullable_matches in H1 as ->.
      apply matches_or_r. by apply IH2.
    + injection Hcs as -> <-.
      assert (matches (Seq (after c r1) r2) (s1 ++ s2))
        by (constructor; auto).
      destruct (nullable r1); [by apply matches_or_l|done].
  - apply matches_or_l. by apply IH.
  - apply matches_or_r. by apply IH.
  - destruct s1 as [|c1 s1]; simpl in Hcs.
    + by apply IH2.
    + injection Hcs as -> <-. constructor; auto.
Qed.

(** [test] decides membership in the language of the expression. *)
Lemma test_matches r s : test r s = true <-> matches r s.
Proof.
  unfold test. revert r. induction s as [|c s IH]; intros r; simpl.
  - apply nullable_matches.
  - rewrite IH. split; [apply after_sound|apply after_complete].
Qed.

Lemma matches_star_class p s :
  matches (Star (Class p)) s <-> Forall (fun c => p c = true) s.
Proof.
  split.
  - intros H. remember (Star (Class p)) as r eqn:Hr.
    induction H as [| | | | |r'|r' s1 s2 H1 _ H2 IH2]; try done.
    injection Hr as ->. apply matches_class_inv in H1 as (c & -> & Hc).
    constructor; auto.
  - induction 1 as [|c s Hc _ IH]; [constructor|].
    apply (matches_star_cons _ [c] s); [by constructor|done].
Qed.

Lemma matches_plus_class p s :
  matches (Plus (Class p)) s <->
  s ≠ [] /\ Forall (fun c => p c = true) s.
Proof.
  unfold Plus. rewrite matches_seq_inv. split.
  - intros (s1 & s2 & -> & (c & -> & Hc)%matches_class_inv
            & H2%matches_star_class).
    split; [done|]. by constructor.
  - intros [Hne H]. destruct H as [|c s Hc H]; [done|].
    exists [c], s. split; [done|]. split; [by constructor|].
    by apply matches_star_class.
Qed.

(** The email pattern accepts exactly the strings of that shape. *)
Lemma emailRegex_accepts (s : JsString.t) :
  test emailRegex s = true <-> local_at_domain_tld s.
Proof.
  rewrite test_matches. unfold emailRegex, local_at_domain_tld.
  rewrite matches_seq_inv. split.
  - intros (loc & s1 & -> & [Hl Fl]%matches_plus_class & H).
    apply matches_seq_inv in H
      as (a & s2 & -> & (c & -> & ->%N.eqb_eq)%matches_class_inv & H).
    apply matches_seq_inv in H
      as (dom & s3 & -> & [Hd Fd]%matches_plus_class & H).
    apply matches_seq_inv in H
      as (b & tld & -> & (c' & -> & ->%N.eqb_eq)%matches_class_inv
          & [Ht Ft]%matches_plus_class).
    exists loc, dom, tld. rewrite !Forall_app. done.
  - intros (loc & dom & tld & -> & Hl & Hd & Ht & [Fl Fd]%Forall_app).
    apply Forall_app in Fd as [Fd Ft].
    exists loc, ([64%N] ++ dom ++ [46%N] ++ tld). split; [done|].
    split; [by apply matches_plus_class|].
    apply (matches_seq _ _ [64%N]); [by constructor|].
    apply matches_seq; [by apply matches_plus_class|].
    apply (matches_seq _ _ [46%N]); [by constructor|].
    by apply matches_plus_class.
Qed.

End RegexFacts.

(** ** Facts about the document operations *)

Section DomFacts.

Import Dom.

Lemma alter_snoc {A} (f : A -> A) (l : list A) (x : A) :
  alter f (length l) (l ++ [x]) = l ++ [f x].
Proof.
  rewrite <- (Nat.add_0_r (length l)) at 1. by rewrite alter_app_r.
Qed.

Lemma find_index_Some {A} (p : A -> bool) (l : list A) k :
  find_index p l = Some k -> exists x, l !! k = Some x /\ p x = true.
Proof.
  revert k. induction l as [|y l IH]; intros k; simpl; [done|].
  destruct (p y) eqn:E.
  - intros [= <-]. by exists y.
  - destruct (find_index p l) as [j|]; simpl; [|done].
    intros [= <-]. by apply IH.
Qed.

Lemma find_index_None {A} (p : A -> bool) (l : list A) :
  find_index p l = None <-> List.filter p l = [].
Proof.
  induction l as [|y l IH]; simpl; [done|].
  destruct (p y); [split; discriminate|].
  rewrite <- IH. destruct (find_index p l); simpl; split; done.
Qed.

Lemma find_index_filter {A} (p : A -> bool) (l : list A) k :
  find_index p l = Some k -> (1 <= length (List.filter p l))%nat.
Proof.
  intros H. destruct (List.filter p l) eqn:E; simpl; [|lia].
  apply find_index_None in E. congruence.
Qed.

Lemma find_index_alter {A} (p : A -> bool) (f : A -> A) k (l : list A) :
  (forall x, l !! k = Some x -> p (f x) = p x) ->
  find_index p (alter f k l) = find_index p l.
Proof.
  revert k. induction l as [|y l IH]; intros [|k] H; simpl; try done.
  - by rewrite (H y).
  - destruct (p y); [done|]. f_equal. by apply IH.
Qed.

Lemma filter_alter_length {A} (p : A -> bool) (f : A -> A) k (l : list A) :
  (forall x, l !! k = Some x -> p (f x) = p x) ->
  length (List.filter p (alter f k l)) = length (List.filter p l).
Proof.
  revert k. induction l as [|y l IH]; intros [|k] H; simpl; try done.
  - rewrite (H y) by done. by destruct (p y).
  - destruct (p y); simpl; [f_equal|]; by apply IH.
Qed.

Lemma find_index_snoc {A} (p : A -> bool) (l : list A) x :
  find_index p (l ++ [x]) =
  match find_index p l with
  | Some k => Some k
  | None => if p x then Some (length l) else None
  end.
Proof.
  induction l as [|y l IH]; simpl; [by destruct (p x)|].
  destruct (p y); [done|]. rewrite IH.
  destruct (find_index p l); simpl; [done|]. by destruct (p x).
Qed.

Lemma filter_snoc_length {A} (p : A -> bool) (l : list A) x :
  length (List.filter p (l ++ [x])) =
  (length (List.filter p l) + if p x then 1 else 0)%nat.
Proof.
  rewrite List.filter_app, length_app. simpl. by destruct (p x).
Qed.

(** Turning off the only element that satisfies [p] leaves none. *)
Lemma find_index_alter_only {A} (p : A -> bool) (f : A -> A) k (l : list A) :
  (forall j y, l !! j = Some y -> p y = true -> j = k) ->
  (forall x, l !! k = Some x -> p (f x) = false) ->
  find_index p (alter f k l) = None.
Proof.
  revert k. induction l as [|y l IH]; intros k Huniq Hoff; [by destruct k|].
  destruct k as [|k]; simpl.
  - rewrite (Hoff y) by done.
    assert (E : find_index p l = None); [|by rewrite E].
    apply find_index_None.
    destruct (List.filter p l) as [|z zs] eqn:Ez; [done|].
    assert (Hz : In z (List.filter p l)) by (rewrite Ez; by left).
    apply List.filter_In in Hz as [Hin Hpz].
    apply list_elem_of_In, list_elem_of_lookup in Hin as [j Hj].
    by specialize (Huniq (S j) z Hj Hpz).
  - destruct (p y) eqn:E.
    + by specialize (Huniq 0%nat y eq_refl E).
    + assert (IHk := IH k). unfold alter in IHk. rewrite IHk; [done| |].
      * intros j z Hj Hz. by specialize (Huniq (S j) z Hj Hz) as [= ->].
      * intros x Hx. by apply Hoff.
Qed.

Lemma filter_In_length {A} (p : A -> bool) (l : list A) k x :
  l !! k = Some x -> p x = true -> (1 <= length (List.filter p l))%nat.
Proof.
  intros Hk Hp.
  assert (H : In x (List.filter p l)).
  { apply List.filter_In. split; [|done].
    apply list_elem_of_In, list_elem_of_lookup. by exists k. }
  destruct (List.filter p l); [done|]. simpl. lia.
Qed.

Lemma filter_alter_off_length {A} (p : A -> bool) (f : A -> A) k l x :
  l !! k = Some x -> p x = true -> p (f x) = false ->
  length (List.filter p (alter f k l)) = pred (length (List.filter p l)).
Proof.
  revert k. induction l as [|y l IH]; intros [|k] Hk Hp Hf; simpl in *;
    try done.
  - injection Hk as ->. by rewrite Hp, Hf.
  - assert (IHk := IH k Hk Hp Hf). unfold alter in IHk.
    pose proof (filter_In_length p l k x Hk Hp).
    destruct (p y); simpl; rewrite IHk; lia.
Qed.

(** With at most one element satisfying [p], the one found is the only
    one. *)
Lemma find_index_only {A} (p : A -> bool) (l : list A) k :
  find_index p l = Some k ->
  (length (List.filter p l) <= 1)%nat ->
  forall j y, l !! j = Some y -> p y = true -> j = k.
Proof.
  revert k. induction l as [|z l IH]; intros k; simpl; [done|].
  destruct (p z) eqn:E; simpl.
  - intros [= <-] Hlen [|j] y Hj Hy; [done|]. simpl in Hj.
    assert (In y (List.filter p l)).
    { apply List.filter_In. split; [|done].
      apply list_elem_of_In, list_elem_of_lookup. by exists j. }
    destruct (List.filter p l); [done|]. simpl in Hlen. lia.
  - destruct (find_index p l) as [k'|] eqn:Ek; simpl; [|done].
    intros [= <-] Hlen [|j] y Hj Hy; simpl in *.
    + congruence.
    + f_equal. by eapply IH.
Qed.

(** Reading an element after a write. *)

Lemma get_update_ne j k f d : j ≠ k -> get j (update k f d) = get j d.
Proof.
  intros H. unfold get, update. by rewrite list_lookup_alter_ne.
Qed.

Lemma get_update_eq k f d :
  (k < length d)%nat -> get k (update k f d) = f (get k d).
Proof.
  intros H. unfold get, update. rewrite list_lookup_alter_eq.
  by destruct (lookup_lt_is_Some_2 _ _ H) as [e ->].
Qed.

Lemma length_update k f d : length (update k f d) = length d.
Proof. apply length_alter. Qed.

(** A write that keeps a projection of the written element keeps it
    everywhere. *)
Lemma get_update_proj {B} (proj : element -> B) j k f d :
  (forall e, proj (f e) = proj e) ->
  proj (get j (update k f d)) = proj (get j d).
Proof.
  intros Hf. destruct (decide (j = k)) as [->|Hne].
  - unfold get, update. rewrite list_lookup_alter_eq.
    destruct (d !! k); simpl; [apply Hf|done].
  - by rewrite get_update_ne.
Qed.

Lemma get_snoc_old j d x : (j < length d)%nat -> get j (d ++ [x]) = get j d.
Proof. intros H. unfold get. by rewrite lookup_app_l. Qed.

Lemma get_snoc_new d x : get (length d) (d ++ [x]) = x.
Proof.
  unfold get. rewrite lookup_app_r by lia. by rewrite Nat.sub_diag.
Qed.

Lemma update_snoc_old k f d x :
  (k < length d)%nat -> update k f (d ++ [x]) = update k f d ++ [x].
Proof. intros H. unfold update. by rewrite alter_app_l. Qed.

Lemma update_snoc_new f d x :
  update (length d) f (d ++ [x]) = d ++ [f x].
Proof. apply alter_snoc. Qed.

Lemma update_update k f g d :
  update k f (update k g d) = update k (f ∘ g) d.
Proof. unfold update. by rewrite list_alter_alter_eq. Qed.

Lemma get_in_range k d x : d !! k = Some x -> get k d = x.
Proof. unfold get. by intros ->. Qed.

Lemma has_id_created i tag : has_id i (created tag) = false.
Proof. done. Qed.

Lemma getElementById_update i k f d :
  (forall e, has_id i (f e) = has_id i e) ->
  getElementById i (update k f d) = getElementById i d.
Proof.
  intros Hf. unfold getElementById. destruct (bool_decide (i = "")); [done|].
  apply find_index_alter. auto.
Qed.

Lemma count_id_update i k f d :
  (forall e, has_id i (f e) = has_id i e) ->
  count_id i (update k f d) = count_id i d.
Proof. intros Hf. apply filter_alter_length. auto. Qed.

Lemma id_update j k f d :
  (forall e, attrs (f e) !! "id" = attrs e !! "id") ->
  id j (update k f d) = id j d.
Proof.
  intros Hf. unfold id.
  by rewrite (get_update_proj (fun e => attrs e !! "id")).
Qed.

Lemma getElementById_Some i d k :
  getElementById i d = Some k ->
  (k < length d)%nat /\ has_id i (get k d) = true.
Proof.
  unfold getElementById. destruct (bool_decide (i = "")); [done|].
  intros (x & Hx & Hp)%find_index_Some. split.
  - by eapply lookup_lt_Some.
  - by rewrite (get_in_range _ _ _ Hx).
Qed.

Lemma getElementById_id i d k :
  getElementById i d = Some k -> id k d = i.
Proof.
  intros [_ H]%getElementById_Some. unfold has_id, id in *.
  apply andb_prop in H as [_ H%bool_decide_eq_true]. by rewrite H.
Qed.

Lemma getElementById_count i d k :
  getElementById i d = Some k -> (1 <= count_id i d)%nat.
Proof.
  unfold getElementById. destruct (bool_decide (i = "")); [done|].
  apply find_index_filter.
Qed.

Lemma getElementById_None_count i d :
  i ≠ "" -> getElementById i d = None <-> count_id i d = 0%nat.
Proof.
  intros Hi. unfold getElementById, count_id.
  rewrite bool_decide_eq_false_2 by done.
  rewrite find_index_None. split; [by intros ->|].
  by intros ?%nil_length_inv.
Qed.

End DomFacts.

(** ** Facts about the field annotations *)

Section FieldFacts.

Import Dom Form.

Lemma flag_has_id i e : has_id i (flag e) = has_id i e.
Proof. unfold has_id, flag; simpl. by rewrite lookup_insert_ne. Qed.

Lemma unflag_has_id i e : has_id i (unflag e) = has_id i e.
Proof. unfold has_id, unflag; simpl. by rewrite !lookup_delete_ne. Qed.

Lemma describe_has_id i j e : has_id i (describe j e) = has_id i e.
Proof. unfold has_id, describe; simpl. by rewrite lookup_insert_ne. Qed.

Lemma with_text_has_id i t e : has_id i (with_text t e) = has_id i e.
Proof. done. Qed.

Lemma flag_id e : attrs (flag e) !! "id" = attrs e !! "id".
Proof. unfold flag; simpl. by rewrite lookup_insert_ne. Qed.

Lemma unflag_id e : attrs (unflag e) !! "id" = attrs e !! "id".
Proof. unfold unflag; simpl. by rewrite !lookup_delete_ne. Qed.

Lemma describe_id i e : attrs (describe i e) !! "id" = attrs e !! "id".
Proof. unfold describe; simpl. by rewrite lookup_insert_ne. Qed.

Lemma clearFieldError_eq field d :
  clearFieldError field d =
  let d' := update field unflag d in
  match getElementById (errorId field d) d with
  | Some e => remove e d'
  | None => d'
  end.
Proof.
  unfold clearFieldError, removeAttribute, setStyle, errorId.
  rewrite !update_update.
  change (with_attrs (delete "aria-describedby")
            ∘ (with_style (assign "borderColor" "")
                 ∘ with_attrs (delete "aria-invalid"))) with unflag.
  rewrite id_update by apply unflag_id.
  rewrite getElementById_update by (intros; apply unflag_has_id).
  done.
Qed.

Lemma showFieldError_eq field message d :
  (field < length d)%nat ->
  showFieldError field message d =
  let i := errorId field d in
  let d1 := update field flag d in
  match getElementById i d with
  | Some e =>
      Ok (update field (describe i) (update e (with_text message) d1))
  | None =>
      match parentNode (get field d) with
      | Some p =>
          Ok (update field (describe i)
                (d1 ++ [with_text message
                          (with_parent (Some p) (error_element i))]))
      | None => Throw
      end
  end.
Proof.
  intros Hin.
  unfold showFieldError, setAttribute, setStyle, setTextContent, errorId.
  rewrite update_update.
  change (with_style (assign "borderColor" "var(--color-callout)")
            ∘ with_attrs (insert "aria-invalid" "true")) with flag.
  rewrite id_update by apply flag_id.
  rewrite getElementById_update by (intros; apply flag_has_id).
  cbv zeta. destruct (getElementById _ d) as [e|]; [done|].
  unfold createElement, appendChild.
  set (l := update field flag d).
  assert (Hl : length l = length d) by apply length_update.
  rewrite !update_snoc_new.
  rewrite get_snoc_old by lia. subst l.
  rewrite (get_update_proj parentNode) by done.
  destruct (parentNode (get field d)) as [p|]; [|done].
  simpl. by rewrite !update_snoc_new.
Qed.

(** The error id is longer than the id it is built from. *)

Lemma length_append s t :
  String.length (s +:+ t) = (String.length s + String.length t)%nat.
Proof. induction s as [|a s IH]; simpl; [done|]. by rewrite IH. Qed.

Lemma append_inj_r s1 s2 t : s1 +:+ t = s2 +:+ t -> s1 = s2.
Proof.
  revert s2. induction s1 as [|a s1 IH]; intros [|b s2] H.
  - done.
  - pose proof (f_equal String.length H) as HL.
    change (String.length t = S (String.length (s2 +:+ t))) in HL.
    rewrite length_append in HL. lia.
  - pose proof (f_equal String.length H) as HL.
    change (S (String.length (s1 +:+ t)) = String.length t) in HL.
    rewrite length_append in HL. lia.
  - injection H as -> H. f_equal. by apply IH.
Qed.

Lemma append_error_ne s : s +:+ "-error" ≠ s.
Proof.
  intros H%(f_equal String.length). rewrite length_append in H.
  simpl in H. lia.
Qed.

Lemma append_error_nonempty s : s +:+ "-error" ≠ "".
Proof.
  intros H%(f_equal String.length). rewrite length_append in H.
  simpl in H. lia.
Qed.

Lemma errorId_found_ne field d e :
  getElementById (errorId field d) d = Some e -> e ≠ field.
Proof.
  intros H%getElementById_id ->. symmetry in H.
  by apply append_error_ne in H.
Qed.

(** *** [clearFieldError] *)

Lemma has_id_detach i e : has_id i (with_parent None e) = false.
Proof. done. Qed.

Lemma clear_length field d : length (clearFieldError field d) = length d.
Proof.
  rewrite clearFieldError_eq. cbv zeta.
  destruct (getElementById _ d); unfold remove; by rewrite ?length_update.
Qed.

Lemma clear_id j field d : id j (clearFieldError field d) = id j d.
Proof.
  rewrite clearFieldError_eq. cbv zeta.
  destruct (getElementById _ d); unfold remove;
    rewrite ?id_update; done || apply unflag_id.
Qed.

Lemma clear_errorId j field d :
  errorId j (clearFieldError field d) = errorId j d.
Proof. unfold errorId. by rewrite clear_id. Qed.

Lemma clear_get_self field d :
  (field < length d)%nat ->
  get field (clearFieldError field d) = unflag (get field d).
Proof.
  intros Hin. rewrite clearFieldError_eq. cbv zeta.
  destruct (getElementById _ d) as [e|] eqn:E.
  - unfold remove. rewrite get_update_ne by (by apply errorId_found_ne in E).
    by apply get_update_eq.
  - by apply get_update_eq.
Qed.

Lemma clear_get_other j field d :
  j ≠ field -> getElementById (errorId field d) d ≠ Some j ->
  get j (clearFieldError field d) = get j d.
Proof.
  intros Hne Hj. rewrite clearFieldError_eq. cbv zeta.
  destruct (getElementById _ d) as [e|] eqn:E.
  - unfold remove. rewrite !get_update_ne; [done..|congruence].
  - by rewrite get_update_ne.
Qed.

Lemma clear_getElementById_other i field d :
  i ≠ errorId field d ->
  getElementById i (clearFieldError field d) = getElementById i d.
Proof.
  intros Hne. rewrite clearFieldError_eq. cbv zeta.
  destruct (getElementById (errorId field d) d) as [e|] eqn:E.
  - unfold remove, getElementById, update.
    destruct (bool_decide (i = "")); [done|].
    rewrite find_index_alter.
    + apply find_index_alter. intros; apply unflag_has_id.
    + intros x Hx. rewrite has_id_detach. symmetry.
      apply getElementById_Some in E as [He Hid].
      assert (Hget : get e (update field unflag d) = x)
        by (by apply get_in_range).
      assert (has_id (errorId field d) x = true) as Hx'.
      { rewrite <- Hget. unfold has_id.
        rewrite (get_update_proj attached) by done.
        rewrite (get_update_proj (fun e => attrs e !! "id"))
          by apply unflag_id. done. }
      unfold has_id in *. apply andb_prop in Hx' as [_ Hx'].
      apply bool_decide_eq_true in Hx'. rewrite Hx'.
      rewrite bool_decide_eq_false_2 by congruence. apply andb_false_r.
  - by apply getElementById_update, unflag_has_id.
Qed.

Lemma has_id_other i i' e : has_id i' e = true -> i ≠ i' -> has_id i e = false.
Proof.
  unfold has_id. intros [_ H%bool_decide_eq_true]%andb_prop Hne.
  rewrite H, bool_decide_eq_false_2 by congruence. apply andb_false_r.
Qed.

Lemma has_id_get_update i j k f d :
  (forall e, has_id i (f e) = has_id i e) ->
  has_id i (get j (update k f d)) = has_id i (get j d).
Proof. intros Hf. by apply (get_update_proj (has_id i)). Qed.

Lemma count_id_update_at i k f d :
  has_id i (f (get k d)) = has_id i (get k d) ->
  count_id i (update k f d) = count_id i d.
Proof.
  intros Hf. apply filter_alter_length. intros x Hx.
  by rewrite (get_in_range _ _ _ Hx) in Hf.
Qed.

Lemma getElementById_update_at i k f d :
  has_id i (f (get k d)) = has_id i (get k d) ->
  getElementById i (update k f d) = getElementById i d.
Proof.
  intros Hf. unfold getElementById. destruct (bool_decide (i = "")); [done|].
  apply find_index_alter. intros x Hx.
  by rewrite (get_in_range _ _ _ Hx) in Hf.
Qed.

Lemma count_id_remove i e d :
  has_id i (get e d) = true ->
  count_id i (remove e d) = pred (count_id i d).
Proof.
  intros H. unfold remove, count_id, update.
  destruct (d !! e) as [x|] eqn:E.
  - rewrite (get_in_range _ _ _ E) in H.
    by apply (filter_alter_off_length _ _ _ _ x).
  - unfold get in H. by rewrite E in H.
Qed.

Lemma clear_count_other i field d :
  i ≠ errorId field d ->
  count_id i (clearFieldError field d) = count_id i d.
Proof.
  intros Hne. rewrite clearFieldError_eq. cbv zeta.
  destruct (getElementById (errorId field d) d) as [e|] eqn:E.
  - unfold remove. rewrite count_id_update_at.
    + by apply count_id_update, unflag_has_id.
    + rewrite has_id_detach. symmetry.
      rewrite has_id_get_update by apply unflag_has_id.
      apply getElementById_Some in E as [_ Hid].
      by apply (has_id_other _ (errorId field d)).
  - by apply count_id_update, unflag_has_id.
Qed.

Lemma clear_count_self field d :
  count_id (errorId field d) (clearFieldError field d) =
  pred (count_id (errorId field d) d).
Proof.
  rewrite clearFieldError_eq. cbv zeta.
  destruct (getElementById (errorId field d) d) as [e|] eqn:E.
  - apply getElementById_Some in E as [_ Hid].
    rewrite count_id_remove.
    + f_equal. by apply count_id_update, unflag_has_id.
    + by rewrite has_id_get_update by apply unflag_has_id.
  - rewrite count_id_update by apply unflag_has_id.
    apply getElementById_None_count in E; [|apply append_error_nonempty].
    by rewrite E.
Qed.

Lemma clear_target_gone field d :
  (count_id (errorId field d) d <= 1)%nat ->
  getElementById (errorId field d) (clearFieldError field d) = None.
Proof.
  intros H. apply getElementById_None_count; [apply append_error_nonempty|].
  rewrite clear_count_self. lia.
Qed.

Lemma unflag_no_error e :
  attrs e !! "aria-invalid" = None ->
  attrs e !! "aria-describedby" = None ->
  style e !! "borderColor" = None ->
  unflag e = e.
Proof.
  intros H1 H2 H3. destruct e as [tg ty v a st tx p inf]; simpl in *.
  unfold unflag, with_attrs, with_style, assign; simpl.
  by rewrite (delete_id a "aria-invalid"),
    (delete_id a "aria-describedby"), (delete_id st "borderColor").
Qed.

Lemma clear_no_error field d :
  no_error field d -> clearFieldError field d = d.
Proof.
  intros (H1 & H2 & H3 & H4). rewrite clearFieldError_eq. cbv zeta.
  rewrite H4. unfold update.
  destruct (d !! field) as [e|] eqn:E.
  - rewrite (get_in_range _ _ _ E) in *.
    rewrite (list_alter_ext unflag (fun x => x) d d field);
      [by apply list_alter_id| |done].
    intros x Hx. assert (x = e) as -> by congruence.
    by apply unflag_no_error.
  - apply list_eq. intros j. rewrite list_lookup_alter.
    case_decide; [subst; by rewrite E|done].
Qed.

Lemma clear_flags field d :
  attrs (get field (clearFieldError field d)) !! "aria-invalid" = None /\
  attrs (get field (clearFieldError field d)) !! "aria-describedby" = None /\
  style (get field (clearFieldError field d)) !! "borderColor" = None.
Proof.
  destruct (decide (field < length d)%nat) as [Hin|Hout].
  - rewrite clear_get_self by done. unfold unflag, assign; simpl.
    by rewrite lookup_delete_ne, !lookup_delete_eq.
  - unfold get. rewrite lookup_ge_None_2; [done|].
    rewrite clear_length. lia.
Qed.

(** *** [showFieldError] *)

Lemma has_id_error_element i i' t p :
  has_id i' (with_text t (with_parent (Some p) (error_element i)))
  = bool_decide (i = i').
Proof.
  unfold has_id; simpl. rewrite lookup_insert_ne by done.
  rewrite lookup_insert_eq. apply bool_decide_ext. split; congruence.
Qed.

Lemma getElementById_nonempty i d :
  i ≠ "" -> getElementById i d = find_index (has_id i) d.
Proof. intros H. unfold getElementById. by rewrite bool_decide_eq_false_2. Qed.

Lemma showFieldError_shown field message d d' :
  (field < length d)%nat ->
  showFieldError field message d = Ok d' -> shown field message d d'.
Proof.
  intros Hin. rewrite showFieldError_eq by done. cbv zeta.
  destruct (getElementById _ d) as [e|] eqn:E.
  - intros [= <-]. by eapply shown_existing.
  - destruct (parentNode (get field d)) as [p|] eqn:P; [|done].
    intros [= <-]. by eapply shown_created.
Qed.

Lemma showFieldError_total field message d :
  (field < length d)%nat ->
  is_Some (parentNode (get field d)) ->
  exists d', showFieldError field message d = Ok d'.
Proof.
  intros Hin [p Hp]. rewrite showFieldError_eq by done. cbv zeta.
  rewrite Hp. destruct (getElementById _ d); by eexists.
Qed.

Lemma show_length field message d d' :
  (field < length d)%nat ->
  showFieldError field message d = Ok d' ->
  length d' =
  (length d + match getElementById (errorId field d) d with
              | Some _ => 0
              | None => 1
              end)%nat.
Proof.
  intros Hin H.
  destruct (showFieldError_shown _ _ _ _ Hin H) as [e E ->|p E P ->]; rewrite E.
  - rewrite !length_update. lia.
  - by rewrite length_update, length_app, length_update.
Qed.

Lemma show_get_self field message d d' :
  (field < length d)%nat ->
  showFieldError field message d = Ok d' ->
  get field d' = describe (errorId field d) (flag (get field d)).
Proof.
  intros Hin H.
  destruct (showFieldError_shown _ _ _ _ Hin H) as [e E ->|p E P ->].
  - rewrite get_update_eq by (by rewrite !length_update).
    rewrite get_update_ne by (intros ->; by apply errorId_found_ne in E).
    by rewrite get_update_eq.
  - rewrite get_update_eq
      by (rewrite length_app, length_update; lia).
    rewrite get_snoc_old by (by rewrite length_update).
    by rewrite get_update_eq.
Qed.

Lemma show_get_other j field message d d' :
  (field < length d)%nat ->
  showFieldError field message d = Ok d' ->
  j ≠ field -> (j < length d)%nat ->
  getElementById (errorId field d) d ≠ Some j ->
  get j d' = get j d.
Proof.
  intros Hin H Hne Hj Hnot.
  destruct (showFieldError_shown _ _ _ _ Hin H) as [e E ->|p E P ->].
  - rewrite !get_update_ne; [done..|congruence|done].
  - rewrite get_update_ne by done.
    rewrite get_snoc_old by (by rewrite length_update).
    by rewrite get_update_ne.
Qed.

Lemma show_id j field message d d' :
  (field < length d)%nat ->
  showFieldError field message d = Ok d' ->
  (j < length d)%nat -> id j d' = id j d.
Proof.
  intros Hin H Hj.
  destruct (showFieldError_shown _ _ _ _ Hin H) as [e E ->|p E P ->].
  - rewrite !id_update; done || apply flag_id || apply describe_id.
  - rewrite id_update by apply describe_id. unfold id.
    rewrite get_snoc_old by (by rewrite length_update).
    fold (id j (update field flag d)). by rewrite id_update by apply flag_id.
Qed.

Lemma show_target field message d d' :
  (field < length d)%nat ->
  showFieldError field message d = Ok d' ->
  exists e,
    getElementById (errorId field d) d' = Some e /\
    textContent (get e d') = message /\
    e = default (length d) (getElementById (errorId field d) d).
Proof.
  intros Hin H.
  destruct (showFieldError_shown _ _ _ _ Hin H) as [e E ->|p E P ->].
  - exists e. rewrite E. split; [|split; [|done]].
    + rewrite !getElementById_update; [done|intros..];
        by rewrite ?describe_has_id, ?flag_has_id.
    + rewrite get_update_ne by (by apply errorId_found_ne in E).
      apply getElementById_Some in E as [He _].
      by rewrite get_update_eq by (by rewrite length_update).
  - exists (length d). rewrite E. split; [|split; [|done]].
    + rewrite getElementById_update by (intros; apply describe_has_id).
      rewrite getElementById_nonempty by apply append_error_nonempty.
      rewrite find_index_snoc.
      rewrite <- getElementById_nonempty by apply append_error_nonempty.
      rewrite getElementById_update by (intros; apply flag_has_id).
      rewrite E, has_id_error_element, bool_decide_eq_true_2 by done.
      by rewrite length_update.
    + rewrite get_update_ne by lia.
      rewrite <- (length_update field flag d). by rewrite get_snoc_new.
Qed.

Lemma show_getElementById_other i field message d d' :
  (field < length d)%nat ->
  showFieldError field message d = Ok d' ->
  i ≠ errorId field d ->
  getElementById i d' = getElementById i d.
Proof.
  intros Hin H Hne.
  destruct (showFieldError_shown _ _ _ _ Hin H) as [e E ->|p E P ->].
  - rewrite !getElementById_update; [done|intros..];
      by rewrite ?describe_has_id, ?flag_has_id.
  - rewrite getElementById_update by (intros; apply describe_has_id).
    unfold getElementById. destruct (bool_decide (i = "")); [done|].
    rewrite find_index_snoc, has_id_error_element.
    rewrite bool_decide_eq_false_2 by congruence.
    unfold update. rewrite find_index_alter by (intros; apply flag_has_id).
    by destruct (find_index _ d).
Qed.

Lemma show_count_other i field message d d' :
  (field < length d)%nat ->
  showFieldError field message d = Ok d' ->
  i ≠ errorId field d ->
  count_id i d' = count_id i d.
Proof.
  intros Hin H Hne.
  destruct (showFieldError_shown _ _ _ _ Hin H) as [e E ->|p E P ->].
  - rewrite !count_id_update; [done|intros..];
      by rewrite ?describe_has_id, ?flag_has_id.
  - rewrite count_id_update by (intros; apply describe_has_id).
    unfold count_id. rewrite filter_snoc_length, has_id_error_element.
    rewrite bool_decide_eq_false_2 by congruence.
    fold (count_id i (update field flag d)).
    rewrite count_id_update by (intros; apply flag_has_id).
    unfold count_id. lia.
Qed.

Lemma show_count_self field message d d' :
  (field < length d)%nat ->
  showFieldError field message d = Ok d' ->
  count_id (errorId field d) d' = Nat.max 1 (count_id (errorId field d) d).
Proof.
  intros Hin H.
  destruct (showFieldError_shown _ _ _ _ Hin H) as [e E ->|p E P ->].
  - rewrite !count_id_update; [|intros..];
      rewrite ?describe_has_id, ?flag_has_id; try done.
    apply getElementById_count in E. lia.
  - rewrite count_id_update by (intros; apply describe_has_id).
    unfold count_id. rewrite filter_snoc_length, has_id_error_element.
    rewrite bool_decide_eq_true_2 by done.
    fold (count_id (errorId field d) (update field flag d)).
    rewrite count_id_update by (intros; apply flag_has_id).
    apply getElementById_None_count in E; [|apply append_error_nonempty].
    unfold count_id in *. lia.
Qed.

Lemma show_shows_error field message d d' :
  (field < length d)%nat ->
  showFieldError field message d = Ok d' ->
  shows_error message field d' = true.
Proof.
  intros Hin H. unfold shows_error.
  assert (errorId field d' = errorId field d) as ->
    by (unfold errorId; by rewrite (show_id field _ _ _ _ Hin H Hin)).
  rewrite (show_get_self _ _ _ _ Hin H).
  destruct (show_target _ _ _ _ Hin H) as (e & -> & -> & _).
  unfold describe, flag; simpl.
  rewrite lookup_insert_ne, !lookup_insert_eq by done.
  by rewrite !bool_decide_eq_true_2.
Qed.

End FieldFacts.

(** ** Field validation *)

Section FieldValidation.

Import Dom Form JsString.

Lemma validateField_eq field d :
  (field < length d)%nat ->
  validateField field d =
  let v := trim (value (get field d)) in
  let d0 := clearFieldError field d in
  if hasAttribute field "required" d && negb (truthy v) then
    d' ← showFieldError field required_message d0; Ok (d', false)
  else if bool_decide (type (get field d) = "email") && truthy v
          && negb (Regex.test emailRegex v) then
    d' ← showFieldError field email_message d0; Ok (d', false)
  else Ok (d0, true).
Proof.
  intros Hin. unfold validateField. cbv zeta.
  rewrite clear_get_self by done.
  change (type (unflag (get field d))) with (type (get field d)).
  generalize (Regex.test emailRegex (trim (value (get field d)))).
  generalize (truthy (trim (value (get field d)))).
  generalize (bool_decide (type (get field d) = "email")).
  generalize (hasAttribute field "required" d).
  by intros [] [] [] [].
Qed.

Lemma clear_keeps_parent field d :
  (field < length d)%nat ->
  parentNode (get field (clearFieldError field d)) = parentNode (get field d).
Proof. intros Hin. by rewrite clear_get_self. Qed.

(** Showing an error on a freshly cleared field completes. *)
Lemma show_after_clear field message d :
  (field < length d)%nat ->
  is_Some (parentNode (get field d)) ->
  exists d',
    showFieldError field message (clearFieldError field d) = Ok d' /\
    shows_error message field d' = true /\
    count_id (errorId field d) d' =
      Nat.max 1 (pred (count_id (errorId field d) d)).
Proof.
  intros Hin Hp.
  assert (Hin' : (field < length (clearFieldError field d))%nat)
    by (by rewrite clear_length).
  destruct (showFieldError_total field message (clearFieldError field d))
    as [d' Hd']; [done|by rewrite clear_keeps_parent|].
  exists d'. split; [done|]. split; [by eapply show_shows_error|].
  pose proof (show_count_self _ _ _ _ Hin' Hd') as Hc.
  by rewrite clear_errorId, clear_count_self in Hc.
Qed.

Lemma truthy_nil v : truthy v = false <-> v = [].
Proof. by destruct v. Qed.

Lemma validateField_validated field d :
  (field < length d)%nat ->
  is_Some (parentNode (get field d)) ->
  validated field d.
Proof.
  intros Hin Hp.
  destruct (show_after_clear field required_message d Hin Hp)
    as (d1 & H1 & Hs1 & Hc1).
  destruct (show_after_clear field email_message d Hin Hp)
    as (d2 & H2 & Hs2 & Hc2).
  pose proof (validateField_eq field d Hin) as H. cbv zeta in H.
  rewrite H1, H2 in H.
  destruct (hasAttribute field "required" d) eqn:Hreq;
    destruct (truthy (trim (value (get field d)))) eqn:Hv;
    destruct (bool_decide (type (get field d) = "email")) eqn:Hty;
    destruct (Regex.test emailRegex (trim (value (get field d)))) eqn:Ht;
    simpl in H;
    try apply bool_decide_eq_true in Hty;
    try apply bool_decide_eq_false in Hty;
    try apply truthy_nil in Hv;
    try (assert (trim (value (get field d)) ≠ [])
           by (intros Hnil%truthy_nil; congruence));
    first [ by apply (validated_required _ _ d1)
          | by apply (validated_email _ _ d2)
          | apply validated_ok; [intros; congruence..|done] ].
Qed.


End FieldValidation.

(** ** A sample contact form *)

Section SampleForm.

Import Dom Form JsString.


End SampleForm.

(** ** One error annotation per field *)

Section FieldAnnotations.

Import Dom Form JsString.

Lemma show_keeps_parent field message d d' :
  (field < length d)%nat ->
  showFieldError field message d = Ok d' ->
  parentNode (get field d') = parentNode (get field d).
Proof. intros Hin H. by rewrite (show_get_self _ _ _ _ Hin H). Qed.

Lemma show_errorId j field message d d' :
  (field < length d)%nat ->
  showFieldError field message d = Ok d' ->
  (j < length d)%nat -> errorId j d' = errorId j d.
Proof. intros Hin H Hj. unfold errorId. by rewrite (show_id j _ _ _ _ Hin H). Qed.

Lemma show_grows field message d d' :
  (field < length d)%nat ->
  showFieldError field message d = Ok d' -> (length d <= length d')%nat.
Proof. intros Hin H. rewrite (show_length _ _ _ _ Hin H). lia. Qed.

Lemma clear_clears field d :
  (count_id (errorId field d) d <= 1)%nat ->
  no_error field (clearFieldError field d).
Proof.
  intros Hc. destruct (clear_flags field d) as (H1 & H2 & H3).
  repeat split; try done.
  rewrite clear_errorId. by apply clear_target_gone.
Qed.



Example show_twice_sample :
  (d1 ← showFieldError name_field required_message sample_form;
   d2 ← showFieldError name_field email_message d1;
   Ok (count_id "name-error" d2, textContent <$> d2 !! 5%nat, length d2)) =
  Ok (1%nat, Some email_message, 6%nat).
Proof. vm_compute. reflexivity. Qed.

End FieldAnnotations.

(** ** Fields do not disturb each other unless their ids collide *)

Section FieldFrames.

Import Dom Form JsString.

Lemma errorId_inj j k d : errorId j d = errorId k d -> id j d = id k d.
Proof. apply append_inj_r. Qed.

(** [shows_error] reads the field, its id, and the element its error id
    resolves to. *)
Lemma shows_error_frame message k d d' :
  get k d' = get k d ->
  getElementById (errorId k d) d' = getElementById (errorId k d) d ->
  (forall e, getElementById (errorId k d) d = Some e -> get e d' = get e d) ->
  shows_error message k d' = shows_error message k d.
Proof.
  intros Hk Hfind He. unfold shows_error, errorId, id.
  rewrite Hk. fold (id k d). fold (errorId k d). rewrite Hfind.
  destruct (getElementById (errorId k d) d) as [e|] eqn:E; [|done].
  by rewrite (He e).
Qed.

Lemma show_frame message k k' message' d d' :
  (k' < length d)%nat -> (k < length d)%nat ->
  showFieldError k' message' d = Ok d' ->
  k ≠ k' -> id k d ≠ id k' d ->
  getElementById (errorId k' d) d ≠ Some k ->
  getElementById (errorId k d) d ≠ Some k' ->
  get k d' = get k d /\
  shows_error message k d' = shows_error message k d.
Proof.
  intros Hin' Hin H Hne Hid T1 T2.
  assert (Hk : get k d' = get k d)
    by exact (show_get_other k k' message' d d' Hin' H Hne Hin T1).
  split; [done|].
  assert (Herr : errorId k d ≠ errorId k' d)
    by (by intros ?%errorId_inj).
  unfold shows_error.
  rewrite (show_errorId k _ _ _ _ Hin' H Hin), Hk.
  rewrite (show_getElementById_other _ _ _ _ _ Hin' H Herr).
  destruct (getElementById (errorId k d) d) as [e|] eqn:E; [|done].
  rewrite (show_get_other e _ _ _ _ Hin' H); [done|congruence| |].
  - by apply getElementById_Some in E as [? _].
  - intros E'. apply getElementById_id in E, E'.
    rewrite E in E'. by apply Herr.
Qed.

Lemma clear_frame message k k' d :
  k ≠ k' -> id k d ≠ id k' d ->
  getElementById (errorId k' d) d ≠ Some k ->
  getElementById (errorId k d) d ≠ Some k' ->
  get k (clearFieldError k' d) = get k d /\
  shows_error message k (clearFieldError k' d) = shows_error message k d.
Proof.
  intros Hne Hid T1 T2.
  assert (Hk : get k (clearFieldError k' d) = get k d)
    by (by apply clear_get_other).
  split; [done|].
  assert (Herr : errorId k d ≠ errorId k' d)
    by (by intros ?%errorId_inj).
  unfold shows_error. rewrite clear_errorId, Hk.
  rewrite (clear_getElementById_other _ _ _ Herr).
  destruct (getElementById (errorId k d) d) as [e|] eqn:E; [|done].
  rewrite clear_get_other; [done|congruence|].
  intros E'. apply getElementById_id in E, E'.
  rewrite E in E'. by apply Herr.
Qed.

End FieldFrames.

(** ** The error element is keyed by the field id *)

Section SharedErrorElement.

Import Dom Form JsString.


End SharedErrorElement.

Section SharedErrorElementSample.

Import Dom Form JsString.


Example shared_error_element_sample :
  (d1 ← showFieldError first_field required_message anonymous_form;
   d2 ← showFieldError second_field email_message d1;
   Ok (length d1, length d2, getElementById "-error" d2,
       textContent <$> d2 !! 4%nat,
       getElementById "-error" (clearFieldError second_field d2),
       attrs (get first_field (clearFieldError second_field d2))
         !! "aria-describedby")) =
  Ok (5%nat, 5%nat, Some 4%nat, Some email_message, None, Some "-error").
Proof. vm_compute. reflexivity. Qed.

End SharedErrorElementSample.

(** ** Submitting the contact form *)

Section ContactSubmit.

Import Dom Form JsString.

Lemma same_input_refl e : same_input e e.
Proof. done. Qed.

Lemma same_input_trans e1 e2 e3 :
  same_input e1 e2 -> same_input e2 e3 -> same_input e1 e3.
Proof. unfold same_input. intuition congruence. Qed.

Lemma same_input_passes e e' : same_input e e' -> passes e' = passes e.
Proof.
  intros (Hv & Ht & Hr & _). unfold passes. cbv zeta.
  rewrite Hv, Ht, Hr. reflexivity.
Qed.

Lemma same_input_unflag e : same_input e (unflag e).
Proof.
  unfold same_input, unflag; simpl. by rewrite !lookup_delete_ne.
Qed.

Lemma same_input_flag e : same_input e (flag e).
Proof.
  unfold same_input, flag; simpl. by rewrite !lookup_insert_ne.
Qed.

Lemma same_input_describe i e : same_input e (describe i e).
Proof.
  unfold same_input, describe; simpl. by rewrite !lookup_insert_ne.
Qed.

(** A validation ends after clearing, or after clearing and showing. *)
Lemma validateField_steps field d d' ok :
  (field < length d)%nat ->
  validateField field d = Ok (d', ok) ->
  ok = passes (get field d) /\
  (d' = clearFieldError field d \/
   exists m, showFieldError field m (clearFieldError field d) = Ok d').
Proof.
  intros Hin. rewrite validateField_eq by done. cbv zeta.
  unfold passes, hasAttribute. cbv zeta.
  generalize (Regex.test emailRegex (trim (value (get field d)))).
  generalize (truthy (trim (value (get field d)))).
  generalize (bool_decide (type (get field d) = "email")).
  generalize (bool_decide (is_Some (attrs (get field d) !! "required"))).
  intros [] [] [] []; cbn [andb negb];
    lazymatch goal with
    | |- (showFieldError ?f ?m ?x ≫= _) = _ -> _ =>
        destruct (showFieldError f m x) as [d1|] eqn:E;
        cbn [mbind result_bind];
        [intros [= <- <-]; split; [done|right; eexists; exact E]
        |discriminate]
    | |- _ => intros [= <- <-]; split; [done|by left]
    end.
Qed.

Lemma validateField_self field d d' ok :
  (field < length d)%nat ->
  validateField field d = Ok (d', ok) ->
  same_input (get field d) (get field d') /\ (length d <= length d')%nat.
Proof.
  intros Hin H.
  destruct (validateField_steps _ _ _ _ Hin H) as [_ [->|[m Hm]]].
  - rewrite clear_get_self, clear_length by done.
    split; [apply same_input_unflag|done].
  - assert (Hin' : (field < length (clearFieldError field d))%nat)
      by (by rewrite clear_length).
    rewrite (show_get_self _ _ _ _ Hin' Hm), clear_get_self by done.
    pose proof (show_grows _ _ _ _ Hin' Hm) as Hg.
    rewrite clear_length in Hg. split; [|done].
    eapply same_input_trans; [apply same_input_unflag|].
    eapply same_input_trans; [apply same_input_flag|].
    apply same_input_describe.
Qed.

(** Another field, whose id neither equals the validated field's id nor
    collides with an error id, is left as it is. *)
Lemma validateField_frame k field d d' ok :
  (field < length d)%nat -> (k < length d)%nat ->
  validateField field d = Ok (d', ok) ->
  k ≠ field ->
  id k d ≠ id field d ->
  id k d ≠ errorId field d ->
  id field d ≠ errorId k d ->
  get k d' = get k d /\
  forall m, shows_error m k d' = shows_error m k d.
Proof.
  intros Hin Hk H Hne Hid T1 T2.
  assert (C : get k (clearFieldError field d) = get k d /\
              forall m, shows_error m k (clearFieldError field d)
                        = shows_error m k d).
  { split; [apply (clear_frame "" k field d)
           |intros m; apply (clear_frame m k field d)]; try done.
    all: intros E%getElementById_id; congruence. }
  destruct C as [Cg Cs].
  destruct (validateField_steps _ _ _ _ Hin H) as [_ [->|[m' Hm]]]; [done|].
  set (d0 := clearFieldError field d) in *.
  assert (Hin0 : (field < length d0)%nat) by (subst d0; by rewrite clear_length).
  assert (Hk0 : (k < length d0)%nat) by (subst d0; by rewrite clear_length).
  assert (S : get k d' = get k d0 /\
              forall m, shows_error m k d' = shows_error m k d0).
  { split; [apply (show_frame "" k field m' d0 d')
           |intros m; apply (show_frame m k field m' d0 d')]; try done.
    all: subst d0; rewrite ?clear_id, ?clear_errorId; try done.
    all: intros E%getElementById_id; rewrite clear_id in E; congruence. }
  destruct S as [Sg Ss]. split; [congruence|].
  intros m. by rewrite Ss, Cs.
Qed.

Lemma same_input_id k d d' :
  same_input (get k d) (get k d') -> id k d' = id k d.
Proof. intros (_ & _ & _ & H & _). unfold id. by rewrite H. Qed.

Lemma validateField_preserves fields field d d' ok :
  separate fields d -> field ∈ fields ->
  validateField field d = Ok (d', ok) ->
  separate fields d' /\ unchanged_inputs fields d d'.
Proof.
  intros (Hlive & Hdist & Hcoll) Hf H.
  destruct (Hlive field Hf) as [Hin Hp].
  destruct (validateField_self _ _ _ _ Hin H) as [Hself Hlen].
  assert (Hsame : unchanged_inputs fields d d').
  { intros k Hk. destruct (decide (k = field)) as [->|Hne]; [done|].
    destruct (Hlive k Hk) as [Hkin _].
    destruct (validateField_frame k field d d' ok) as [-> _]; auto.
    apply same_input_refl. }
  split; [|done].
  assert (Hid : forall k, k ∈ fields -> id k d' = id k d)
    by (intros k Hk; by apply same_input_id, Hsame).
  split; [|split].
  - intros k Hk. destruct (Hlive k Hk) as [Hkin Hkp].
    destruct (Hsame k Hk) as (_ & _ & _ & _ & Hpar).
    split; [lia|by rewrite Hpar].
  - intros j k Hj Hk Hne. rewrite !Hid by done. by apply Hdist.
  - intros j k Hj Hk. unfold errorId. rewrite !Hid by done.
    by apply Hcoll.
Qed.

Lemma forallb_ext_in {A} (f g : A -> bool) (l : list A) :
  (forall x, x ∈ l -> f x = g x) -> forallb f l = forallb g l.
Proof.
  induction l as [|x l IH]; intros H; simpl; [done|].
  rewrite (H x) by left. rewrite IH; [done|].
  intros y Hy. apply H. by right.
Qed.

Lemma forEach_validate_spec (fields : list nat) :
  forall (inputs : list nat) (d : dom) (isValid : bool),
    (forall k, k ∈ inputs -> k ∈ fields) ->
    separate fields d ->
    exists d',
      forEach_validate inputs isValid d =
        Ok (d', isValid && forallb (fun k => passes (get k d)) inputs) /\
      separate fields d' /\
      unchanged_inputs fields d d' /\
      (forall k, k ∈ inputs ->
         hasAttribute k "required" d = true ->
         trim (value (get k d)) = [] ->
         shows_error required_message k d' = true) /\
      (forall k m, k ∈ fields -> k ∉ inputs ->
         shows_error m k d' = shows_error m k d).
Proof.
  induction inputs as [|field inputs IH]; intros d isValid Hsub Hsep.
  { exists d. simpl. rewrite andb_true_r.
    split; [done|]. split; [done|].
    split; [intros k Hk; apply same_input_refl|].
    split; [by intros k ?%elem_of_nil|done]. }
  assert (Hf : field ∈ fields) by (apply Hsub; left).
  destruct Hsep as (Hlive & Hdist & Hcoll).
  destruct (Hlive field Hf) as [Hin Hp].
  assert (Hstep : exists d1 ok, validateField field d = Ok (d1, ok)).
  { destruct (validateField_validated field d Hin Hp); by do 2 eexists. }
  destruct Hstep as (d1 & ok & H1).
  destruct (validateField_steps _ _ _ _ Hin H1) as [Hok _].
  destruct (validateField_preserves fields field d d1 ok) as [Hsep1 Hsame1];
    [done..|].
  destruct (IH d1 (if negb ok then false else isValid)) as
    (d' & Hrun & Hsep' & Hsame' & Hshown & Hframe);
    [intros k Hk; apply Hsub; by right|done|].
  exists d'. split; [|split; [done|split; [|split]]].
  - cbn [forEach_validate mbind result_bind]. rewrite H1.
    cbn [mbind result_bind]. rewrite Hrun. do 2 f_equal.
    cbn [forallb]. rewrite <- Hok.
    rewrite (forallb_ext_in (fun k => passes (get k d1))
               (fun k => passes (get k d)) inputs).
    + by destruct ok, isValid.
    + intros k Hk. apply same_input_passes, Hsame1, Hsub. by right.
  - intros k Hk. eapply same_input_trans; [by apply Hsame1|by apply Hsame'].
  - intros k Hk Hreq Hv.
    destruct (decide (k ∈ inputs)) as [Hin'|Hnot].
    + assert (Hkf : k ∈ fields) by (apply Hsub; by right).
      destruct (Hsame1 k Hkf) as (Hval & _ & Hr & _).
      apply Hshown; [done| |by rewrite Hval].
      unfold hasAttribute in *. by rewrite Hr.
    + assert (k = field) as -> by (by apply elem_of_cons in Hk as [|]).
      rewrite Hframe by done.
      destruct (validateField_validated field d Hin Hp)
        as [d2 _ _ H2 Hs _|d2 _ Hne _ _ _ _|Hne _ _]; [|done|by apply Hne in Hreq].
      rewrite H1 in H2. by injection H2 as ->.
  - intros k m Hk Hnot. apply not_elem_of_cons in Hnot as [Hne Hnot].
    rewrite Hframe by done.
    destruct (Hlive k Hk) as [Hkin _].
    destruct (validateField_frame k field d d1 ok) as [_ ->]; auto.
Qed.

End ContactSubmit.

(** ** What a submission does *)

Section ContactSubmitTheorems.

Import Dom Form JsString.

Lemma required_controls_spec k d :
  k ∈ required_controls d ->
  (k < length d)%nat /\ hasAttribute k "required" d = true /\
  is_Some (parentNode (get k d)).
Proof.
  unfold required_controls, select.
  intros [Hseq Hp]%list_elem_of_In%List.filter_In.
  apply List.in_seq in Hseq. split; [lia|].
  apply andb_prop in Hp as [Hp Hreq]. split; [done|].
  apply andb_prop in Hp as [Hp _]. apply andb_prop in Hp as [Hp _].
  by apply bool_decide_eq_true in Hp.
Qed.

Lemma required_empty_fails e :
  is_Some (attrs e !! "required") -> trim (value e) = [] -> passes e = false.
Proof.
  intros Hr Hv. unfold passes. cbv zeta. rewrite Hv.
  by rewrite bool_decide_eq_true_2.
Qed.




End ContactSubmitTheorems.

(** ** Missing elements *)

Section MissingElements.

Import Nav.

(** With the container present no navigation listener ever throws. *)
Lemma nav_no_fault_with_container pg ev s :
  navigation pg = true -> uncaught (dispatch pg ev s) = 0%nat.
Proof.
  intros Hnav. unfold dispatch, listeners.
  destruct (setupMobileNavigation pg); [|done].
  destruct ev as [| |inside|key|w]; simpl;
    unfold on_document_click, on_keydown, on_resize; rewrite ?Hnav; simpl;
    repeat (match goal with |- context [if ?b then _ else _] =>
              destruct b end; simpl); done.
Qed.

(** Without it every document click that finds the menu open throws. *)
Lemma nav_fault_without_container pg inside s :
  setupMobileNavigation pg = true -> navigation pg = false ->
  isMenuOpen s = true ->
  dispatch pg (DocumentClick inside) s = {| after := s; uncaught := 1 |}.
Proof.
  intros Hsetup Hnav Hopen. unfold dispatch, listeners. rewrite Hsetup.
  simpl. unfold on_document_click. by rewrite Hopen, Hnav.
Qed.

(** C6 fails for the mobile navigation: [setupMobileNavigation] checks the
    toggle and the menu but not the container its click listener
    dereferences.  On a page without the container the feature is set up,
    and the first click on the toggle opens the menu and then raises a
    [TypeError] in the document listener the click bubbles to. *)
Theorem nav_setup_misses_container_check :
  setupMobileNavigation page_without_container = true /\
  Scroll.setupScrollBehavior (navigation page_without_container) true
    = false /\
  uncaught (dispatch page_without_container ToggleClick (initial ∅ ∅))
    = 1%nat /\
  isMenuOpen (after (dispatch page_without_container ToggleClick
                       (initial ∅ ∅))) = true.
Proof. repeat split; vm_compute; reflexivity. Qed.

End MissingElements.

(** ** Mobile navigation: the menu class, who opens the menu, what throws *)

Section NavFurther.

Import Nav.

Lemma toggle_menu_shown pg s : menu_shown (toggleMobileMenu pg s).
Proof.
  unfold menu_shown, toggleMobileMenu.
  destruct (isMenuOpen s); simpl; rewrite ?elem_of_union,
    ?elem_of_difference, ?elem_of_singleton; intuition congruence.
Qed.

Lemma close_menu_shown s : menu_shown (closeMobileMenu s).
Proof.
  unfold menu_shown, closeMobileMenu; simpl.
  rewrite elem_of_difference, elem_of_singleton. intuition congruence.
Qed.

(** Every listener leaves the state alone or ends with the class and the
    flag in agreement. *)
Lemma listener_menu_shown pg ev l s s' :
  l ∈ listeners pg ev -> l s = Ok s' -> s' = s \/ menu_shown s'.
Proof.
  unfold listeners. destruct (setupMobileNavigation pg); [|by intros ?%elem_of_nil].
  assert (Hdoc : forall inside, on_document_click pg inside s = Ok s' ->
                                s' = s \/ menu_shown s').
  { intros inside. unfold on_document_click.
    destruct (isMenuOpen s), (navigation pg), inside; simpl;
      intros [= <-]; (by left) || (right; apply close_menu_shown). }
  destruct ev as [| |inside|key|w]; rewrite ?elem_of_cons, elem_of_nil.
  - intros [->|[->|[]]]; [|by apply Hdoc].
    intros [= <-]. right. apply toggle_menu_shown.
  - intros [->|[]]. intros [= <-]. right. apply toggle_menu_shown.
  - intros [->|[]]. by apply Hdoc.
  - intros [->|[]]. unfold on_keydown.
    destruct (_ && _); intros [= <-]; [right|by left].
    apply close_menu_shown.
  - intros [->|[]]. unfold on_resize.
    destruct (_ && _); intros [= <-]; [right|by left].
    apply close_menu_shown.
Qed.

Lemma run_listeners_menu_shown pg ev ls s :
  (forall l, l ∈ ls -> l ∈ listeners pg ev) ->
  after (run_listeners ls s) = s \/ menu_shown (after (run_listeners ls s)).
Proof.
  revert s. induction ls as [|l ls IH]; intros s Hsub; simpl; [by left|].
  assert (Hl : l ∈ listeners pg ev) by (apply Hsub; left).
  assert (Hls : forall l', l' ∈ ls -> l' ∈ listeners pg ev)
    by (intros l' ?; apply Hsub; by right).
  destruct (l s) as [s'|] eqn:E; simpl; [|by apply IH].
  destruct (listener_menu_shown pg ev l s s' Hl E) as [->|Hs'];
    [by apply IH|].
  destruct (IH s' Hls) as [->|H]; by right.
Qed.

Lemma dispatch_menu_shown pg ev s :
  after (dispatch pg ev s) = s \/ menu_shown (after (dispatch pg ev s)).
Proof. by apply (run_listeners_menu_shown pg ev). Qed.

(** X1.  From a state in which the menu's [nav-menu--open] class agrees
    with the [isMenuOpen] flag, the two agree after every event of every
    sequence; and whatever the state, an event that changes the flag or the
    menu's classes leaves them in agreement. *)
Theorem nav_menu_class_tracks_flag (pg : page) (s : state)
    (evs : list event) :
  menu_shown s ->
  Forall menu_shown (trace pg evs s) /\
  (forall s1 ev,
      let s2 := after (dispatch pg ev s1) in
      isMenuOpen s2 <> isMenuOpen s1 \/ menu_classes s2 <> menu_classes s1 ->
      menu_shown s2).
Proof.
  intros H. split.
  - revert s H. induction evs as [|ev evs IH]; intros s H; simpl;
      constructor.
    + by destruct (dispatch_menu_shown pg ev s) as [->|].
    + apply IH. by destruct (dispatch_menu_shown pg ev s) as [->|].
  - intros s1 ev s2 Hchg. subst s2.
    destruct (dispatch_menu_shown pg ev s1) as [E|]; [|done].
    rewrite E in Hchg. by destruct Hchg.
Qed.

Lemma nav_menu_class_tracks_flag_witness :
  menu_shown (initial ∅ ∅) /\
  Forall menu_shown (trace nav_page nav_events (initial ∅ ∅)).
Proof.
  assert (H : menu_shown (initial ∅ ∅)).
  { unfold menu_shown; simpl. split; [set_solver|done]. }
  split; [exact H|].
  exact (proj1 (nav_menu_class_tracks_flag nav_page (initial ∅ ∅)
                  nav_events H)).
Defined.

Lemma dispatch_stays_closed pg ev s :
  is_toggle ev = false -> isMenuOpen s = false ->
  isMenuOpen (after (dispatch pg ev s)) = false.
Proof.
  intros Hev Hs. unfold dispatch, listeners.
  destruct (setupMobileNavigation pg); [|done].
  destruct ev as [| |inside|key|w]; try done; simpl;
    unfold on_document_click, on_keydown, on_resize;
    rewrite Hs, ?andb_false_r; done.
Qed.

(** X2.  Only an activation of the toggle opens the menu: along a sequence
    of events that holds none, a closed menu stays closed, whatever is
    clicked, typed or resized. *)
Theorem nav_only_toggle_opens (pg : page) (evs : list event) (s : state) :
  forallb (fun ev => negb (is_toggle ev)) evs = true ->
  isMenuOpen s = false ->
  isMenuOpen (nav_run pg evs s) = false.
Proof.
  unfold nav_run. revert s.
  induction evs as [|ev evs IH]; intros s Hevs Hs; simpl in *; [done|].
  apply andb_prop in Hevs as [Hev Hevs]. apply negb_true_iff in Hev.
  apply IH; [done|]. by apply dispatch_stays_closed.
Qed.

Lemma nav_only_toggle_opens_witness :
  (forallb (fun ev => negb (is_toggle ev))
     [DocumentClick false; KeyDown "Escape"; KeyDown "Enter"; Resize 1280]
   = true /\
   isMenuOpen (initial ∅ ∅) = false) /\
  isMenuOpen
    (nav_run nav_page
       [DocumentClick false; KeyDown "Escape"; KeyDown "Enter"; Resize 1280]
       (initial ∅ ∅)) = false.
Proof.
  split; [split; reflexivity|].
  exact (nav_only_toggle_opens nav_page
           [DocumentClick false; KeyDown "Escape"; KeyDown "Enter";
            Resize 1280]
           (initial ∅ ∅) eq_refl eq_refl).
Defined.

(** X3.  Handling an event of the navigation raises an uncaught error in
    exactly one situation: the feature is set up, the page has no
    navigation container, and the document click listener finds the menu
    open (a click that has just opened it, or any click while it is open).
    Then there is exactly one error; in every other case there is none. *)
Theorem nav_throws_exactly_without_container (pg : page) (ev : event)
    (s : state) :
  uncaught (dispatch pg ev s) =
  if setupMobileNavigation pg && negb (navigation pg)
     && reaches_open_document ev s
  then 1%nat else 0%nat.
Proof.
  unfold dispatch, listeners.
  destruct (setupMobileNavigation pg); [|done].
  destruct ev as [| |inside|key|w]; simpl.
  - unfold on_document_click, toggleMobileMenu.
    destruct (isMenuOpen s), (navigation pg),
      (toggle_in_navigation pg); done.
  - by rewrite andb_false_r.
  - unfold on_document_click.
    destruct (isMenuOpen s), (navigation pg), inside; done.
  - unfold on_keydown. rewrite andb_false_r. by destruct (_ && _).
  - unfold on_resize. rewrite andb_false_r. by destruct (_ && _).
Qed.

Lemma toggle_frame pg s a c :
  a ≠ "aria-expanded" -> c ≠ "nav-menu--open" ->
  toggle_attrs (toggleMobileMenu pg s) !! a = toggle_attrs s !! a /\
  (c ∈ menu_classes (toggleMobileMenu pg s) <-> c ∈ menu_classes s).
Proof.
  intros Ha Hc. unfold toggleMobileMenu.
  destruct (negb (isMenuOpen s)); simpl;
    (split; [by rewrite lookup_insert_ne|]);
    rewrite ?elem_of_union, ?elem_of_difference, ?elem_of_singleton;
    intuition congruence.
Qed.

Lemma close_frame s a c :
  a ≠ "aria-expanded" -> c ≠ "nav-menu--open" ->
  toggle_attrs (closeMobileMenu s) !! a = toggle_attrs s !! a /\
  (c ∈ menu_classes (closeMobileMenu s) <-> c ∈ menu_classes s).
Proof.
  intros Ha Hc. unfold closeMobileMenu; simpl.
  split; [by rewrite lookup_insert_ne|].
  rewrite elem_of_difference, elem_of_singleton. intuition congruence.
Qed.

Lemma dispatch_frame pg ev s a c :
  a ≠ "aria-expanded" -> c ≠ "nav-menu--open" ->
  toggle_attrs (after (dispatch pg ev s)) !! a = toggle_attrs s !! a /\
  (c ∈ menu_classes (after (dispatch pg ev s)) <-> c ∈ menu_classes s).
Proof.
  intros Ha Hc.
  pose proof (fun s => toggle_frame pg s a c Ha Hc) as Ht.
  pose proof (fun s => close_frame s a c Ha Hc) as Hcl.
  assert (Hdoc : forall inside s0,
    toggle_attrs (after (run_listeners [on_document_click pg inside] s0))
      !! a = toggle_attrs s0 !! a /\
    (c ∈ menu_classes (after (run_listeners [on_document_click pg inside]
                                s0)) <-> c ∈ menu_classes s0)).
  { intros inside s0. simpl. unfold on_document_click.
    destruct (isMenuOpen s0), (navigation pg), inside; simpl;
      done || apply Hcl. }
  unfold dispatch, listeners.
  destruct (setupMobileNavigation pg); [|done].
  destruct ev as [| |inside|key|w].
  - change (run_listeners [on_toggle_click pg; ?l] s)
      with (run_listeners [l] (toggleMobileMenu pg s)).
    destruct (Hdoc (toggle_in_navigation pg) (toggleMobileMenu pg s))
      as [-> ->]. apply Ht.
  - apply Ht.
  - apply Hdoc.
  - simpl. unfold on_keydown. destruct (_ && _); simpl; [apply Hcl|done].
  - simpl. unfold on_resize. destruct (_ && _); simpl; [apply Hcl|done].
Qed.

(** X4.  The navigation writes nothing but [aria-expanded] on the toggle
    and nothing but [nav-menu--open] on the menu: every other attribute and
    every other class is, after any sequence of events, as it was. *)
Theorem nav_touches_only_its_attribute_and_class (pg : page)
    (evs : list event) (s : state) (a c : string) :
  a ≠ "aria-expanded" -> c ≠ "nav-menu--open" ->
  toggle_attrs (nav_run pg evs s) !! a = toggle_attrs s !! a /\
  (c ∈ menu_classes (nav_run pg evs s) <-> c ∈ menu_classes s).
Proof.
  intros Ha Hc. unfold nav_run. revert s.
  induction evs as [|ev evs IH]; intros s; simpl; [done|].
  destruct (IH (after (dispatch pg ev s))) as [-> ->].
  by apply dispatch_frame.
Qed.

Lemma nav_touches_only_its_attribute_and_class_witness :
  ("aria-label" ≠ "aria-expanded" /\ "nav-menu" ≠ "nav-menu--open") /\
  toggle_attrs
    (nav_run nav_page nav_events
       (initial {["aria-label" := "Menu"]} {["nav-menu"]}))
    !! "aria-label" = Some "Menu".
Proof.
  assert (H1 : "aria-label" ≠ "aria-expanded") by done.
  assert (H2 : "nav-menu" ≠ "nav-menu--open") by done.
  split; [done|].
  rewrite (proj1 (nav_touches_only_its_attribute_and_class nav_page
                    nav_events _ "aria-label" "nav-menu" H1 H2)).
  reflexivity.
Defined.

End NavFurther.

(** ** Header: scroll events between frames, and the other classes *)

Section ScrollFurther.

Import Scroll.

Lemma scroll_run_agrees evs : forall s t b,
  lastScrollY s = lastScrollY t -> nav_classes s = nav_classes t ->
  ticking s = b -> pending s = (if b then 1 else 0)%nat ->
  let s' := scroll_run evs s in
  let t' := sample (updating_frames evs b) t in
  lastScrollY s' = lastScrollY t' /\ nav_classes s' = nav_classes t' /\
  ticking s' = awaiting_frame evs b /\
  pending s' = (if awaiting_frame evs b then 1 else 0)%nat.
Proof.
  unfold scroll_run, sample.
  induction evs as [|[|f] evs IH]; intros s t b Hy Hc Ht Hp; simpl.
  - done.
  - apply IH; unfold onScroll; rewrite Ht; destruct b; simpl; try done.
    by rewrite Hp.
  - rewrite Hp. destruct b; simpl.
    + apply IH; simpl; try done. by rewrite Hy, Hc.
    + by apply IH.
Qed.

(** X5.  Scroll events are coalesced per animation frame.  From a state
    with no update requested, after any sequence of scroll events and
    frames the header's classes and the remembered offset are those of
    running [updateNavigation] once for each frame that follows at least
    one scroll event since the frame before, and for no other frame; an
    update is left requested (and exactly one callback queued) exactly when
    the sequence ends in scroll events. *)
Theorem scroll_events_coalesce_per_frame (evs : list event) (s : state) :
  ticking s = false -> pending s = 0%nat ->
  let s' := scroll_run evs s in
  let t' := sample (updating_frames evs false) s in
  lastScrollY s' = lastScrollY t' /\ nav_classes s' = nav_classes t' /\
  ticking s' = awaiting_frame evs false /\
  pending s' = (if awaiting_frame evs false then 1 else 0)%nat.
Proof.
  intros Ht Hp. by apply (scroll_run_agrees evs s s false).
Qed.

Lemma scroll_events_coalesce_per_frame_witness :
  let f1 := {| scrollY := 700; offsetHeight := 600 |} in
  let f2 := {| scrollY := 650; offsetHeight := 600 |} in
  let evs := [ScrollEvent; ScrollEvent; ScrollEvent; AnimationFrame f1;
              AnimationFrame f2; ScrollEvent] in
  (ticking scroll_start = false /\ pending scroll_start = 0%nat) /\
  updating_frames evs false = [f1] /\
  nav_classes (scroll_run evs scroll_start) =
  nav_classes (updateNavigation f1 scroll_start) /\
  ticking (scroll_run evs scroll_start) = true.
Proof.
  intros f1 f2 evs.
  split; [split; reflexivity|]. split; [reflexivity|].
  destruct (scroll_events_coalesce_per_frame evs scroll_start
              eq_refl eq_refl) as (_ & Hc & Ht & _).
  split; [exact Hc|exact Ht].
Defined.

Lemma updateNavigation_other_classes f s c :
  c ≠ "hidden" ->
  c ∈ nav_classes (updateNavigation f s) <-> c ∈ nav_classes s.
Proof.
  intros Hc. unfold updateNavigation; simpl.
  destruct (_ && _);
    rewrite ?elem_of_union, ?elem_of_difference, ?elem_of_singleton;
    intuition congruence.
Qed.

Lemma run_callbacks_other_classes n f c : forall s,
  c ≠ "hidden" ->
  c ∈ nav_classes (run_callbacks n f s) <-> c ∈ nav_classes s.
Proof.
  induction n as [|n IH]; intros s Hc; simpl; [done|].
  rewrite IH by done. by apply updateNavigation_other_classes.
Qed.

(** X6.  Scrolling changes no class of the navigation container other than
    [hidden]: after any sequence of scroll events and frames, from any
    state, every other class is present exactly if it was before. *)
Theorem scroll_touches_only_hidden (evs : list event) (s : state)
    (c : string) :
  c ≠ "hidden" ->
  c ∈ nav_classes (scroll_run evs s) <-> c ∈ nav_classes s.
Proof.
  intros Hc. unfold scroll_run. revert s.
  induction evs as [|[|f] evs IH]; intros s; simpl; [done| |].
  - rewrite IH. unfold onScroll. by destruct (negb (ticking s)).
  - rewrite IH. by rewrite run_callbacks_other_classes.
Qed.

Lemma scroll_touches_only_hidden_witness :
  "hamburger-nav" ≠ "hidden" /\
  "hamburger-nav" ∈
    nav_classes
      (scroll_run
         [ScrollEvent; AnimationFrame {| scrollY := 700; offsetHeight := 600 |}]
         scroll_start).
Proof.
  assert (H : "hamburger-nav" ≠ "hidden") by done.
  split; [exact H|].
  apply (scroll_touches_only_hidden _ scroll_start "hamburger-nav" H).
  simpl. by apply elem_of_singleton.
Defined.

End ScrollFurther.

(** ** Contact modal: visible state, pending timeouts, closing twice *)

Section ModalFurther.

Import Modal.

Lemma openModal_opened t s : opened (openModal t s).
Proof.
  unfold opened, openModal; simpl. unfold assign; simpl.
  by rewrite !lookup_insert_eq.
Qed.

Lemma closeModal_coherent s : coherent s -> coherent (closeModal s).
Proof.
  intros [([t Ht] & _)|((Ht & _) & Hf)]; right; unfold closed, closeModal;
    simpl; rewrite Ht; simpl; unfold assign; simpl;
    by rewrite ?lookup_insert_eq, ?lookup_delete_eq.
Qed.

Lemma focus_input_coherent s : coherent s -> coherent (focus FirstInput s).
Proof.
  intros [H|[(Ht & Hd & Ha & Hb) Hf]]; [by left|right].
  split; [done|]. simpl. by rewrite Hd.
Qed.

Lemma step_coherent pg ev s : coherent s -> coherent (step pg ev s).
Proof.
  intros H. destruct ev as [t| | |key| |ms|i]; simpl.
  - destruct (_ && _); [left; apply openModal_opened|done].
  - destruct (_ && _); [by apply closeModal_coherent|done].
  - destruct (_ && _); [by apply closeModal_coherent|done].
  - destruct (modal pg); [|done]. unfold on_keydown.
    destruct (_ && _); [by apply closeModal_coherent|done].
  - by destruct (_ && _).
  - done.
  - destruct (timers s !! i) as [[due [|]]|]; [| |done];
      (destruct (due <=? now s); [|done]); simpl.
    + destruct (modal_has_input pg); [|done].
      by apply (focus_input_coherent (drop_timer i s)).
    + by apply (closeModal_coherent
                  (window_open "/neuroinclusive-interview-tips.pdf" "_blank"
                     (drop_timer i s))).
Qed.



Lemma closeModal_timers s : timers (closeModal s) = timers s.
Proof. unfold closeModal; simpl. by destruct (activeModalTrigger s). Qed.

Lemma step_keeps_timers pg ev s :
  is_timeout ev = false -> timers s `prefix_of` timers (step pg ev s).
Proof.
  intros Hev. destruct ev as [t| | |key| |ms|i]; try done; simpl.
  - destruct (_ && _); [|done]. by apply prefix_app_r.
  - destruct (_ && _); [|done]. by rewrite closeModal_timers.
  - destruct (_ && _); [|done]. by rewrite closeModal_timers.
  - destruct (modal pg); [|done]. unfold on_keydown.
    destruct (_ && _); [|done]. by rewrite closeModal_timers.
  - destruct (_ && _); [|done]. by apply prefix_app_r.
Qed.

Lemma run_keeps_timers pg evs : forall s,
  forallb (fun ev => negb (is_timeout ev)) evs = true ->
  timers s `prefix_of` timers (run pg evs s).
Proof.
  unfold run. induction evs as [|ev evs IH]; intros s H; simpl in *; [done|].
  apply andb_prop in H as [Hev H]. apply negb_true_iff in Hev.
  etransitivity; [by apply (step_keeps_timers pg ev)|by apply IH].
Qed.

(** X8.  Nothing cancels a pending timeout.  After the subscription form is
    submitted, the deferred opening of the document stays queued, due one
    second after the submission, through every later click, key press and
    submission: closing the modal by its button, its overlay or Escape does
    not withdraw it. *)
Theorem modal_close_keeps_pending_document (pg : page) (evs : list event)
    (s : state) :
  modal pg = true -> form pg = true ->
  forallb (fun ev => negb (is_timeout ev)) evs = true ->
  timers (run pg (Submit :: evs) s) !! length (timers s) =
  Some (now s + 1000, OpenPdfThenClose).
Proof.
  intros Hm Hf Hevs. unfold run; simpl. rewrite Hm, Hf; simpl.
  pose proof (run_keeps_timers pg evs
                (setTimeout OpenPdfThenClose 1000 s) Hevs) as [k Hk].
  unfold run in Hk. rewrite Hk. simpl.
  rewrite <- app_assoc.
  exact (list_lookup_middle (timers s) k _ _ eq_refl).
Qed.

Lemma modal_close_keeps_pending_document_witness :
  (modal modal_page = true /\ form modal_page = true /\
   forallb (fun ev => negb (is_timeout ev))
     [Elapse 300; KeyDown "Escape"; Elapse 700] = true) /\
  timers (run modal_page
            [Submit; Elapse 300; KeyDown "Escape"; Elapse 700]
            (openModal LeadMagnetTrigger initial)) !! 1%nat =
  Some (1000, OpenPdfThenClose).
Proof.
  split; [repeat split|].
  exact (modal_close_keeps_pending_document modal_page
           [Elapse 300; KeyDown "Escape"; Elapse 700]
           (openModal LeadMagnetTrigger initial) eq_refl eq_refl eq_refl).
Defined.

(** X9.  Focus is handed back at most once per opening.  Closing a modal
    that has just been closed performs the three writes again but calls
    [focus] on nothing, leaves the keyboard focus where the first closing
    put it and changes no style, attribute or pending timeout. *)
Theorem modal_second_close_moves_no_focus (s : state) :
  let s1 := closeModal s in
  let s2 := closeModal s1 in
  log s2 = log s1 ++ close_writes /\
  activeElement s2 = activeElement s1 /\
  activeModalTrigger s2 = None /\
  modal_style s2 = modal_style s1 /\
  modal_attrs s2 = modal_attrs s1 /\
  body_style s2 = body_style s1 /\
  timers s2 = timers s1.
Proof.
  intros s1 s2. subst s2.
  pose proof (closeModal_trigger s) as Ht. fold s1 in Ht.
  assert (Hd : modal_style s1 = <["display" := "none"]> (modal_style s)).
  { subst s1. unfold closeModal; simpl.
    by destruct (activeModalTrigger s). }
  assert (Ha : modal_attrs s1 = <["aria-hidden" := "true"]> (modal_attrs s)).
  { subst s1. unfold closeModal; simpl.
    by destruct (activeModalTrigger s). }
  assert (Hb : body_style s1 = delete "overflow" (body_style s)).
  { subst s1. unfold closeModal; simpl.
    by destruct (activeModalTrigger s). }
  unfold closeModal at 1 2 3 4 5 6 7. simpl. rewrite Ht. simpl.
  split; [by rewrite <- !app_assoc|]. do 2 (split; [done|]).
  unfold assign; simpl. rewrite Hd, Ha, Hb.
  by rewrite !insert_insert_eq, delete_delete_eq.
Qed.

End ModalFurther.

(** ** Contact form: round trip, verdict and display, blur and input,
    optional controls *)

Section FormFurther.

Import Dom Form JsString.

Lemma unflag_describe_flag i e :
  attrs e !! "aria-invalid" = None ->
  attrs e !! "aria-describedby" = None ->
  style e !! "borderColor" = None ->
  unflag (describe i (flag e)) = e.
Proof.
  intros H1 H2 H3. destruct e as [tg ty v a st tx p inf]; simpl in *.
  unfold unflag, describe, flag, with_attrs, with_style, assign; simpl.
  f_equal.
  - apply map_eq. intros k.
    destruct (decide (k = "aria-describedby")) as [->|Hd];
      [by rewrite lookup_delete_eq|rewrite lookup_delete_ne by done].
    destruct (decide (k = "aria-invalid")) as [->|Hi];
      [by rewrite lookup_delete_eq|rewrite lookup_delete_ne by done].
    by rewrite !lookup_insert_ne.
  - apply map_eq. intros k.
    destruct (decide (k = "borderColor")) as [->|Hb];
      [by rewrite lookup_delete_eq|rewrite lookup_delete_ne by done].
    by rewrite lookup_insert_ne.
Qed.

Lemma update_fixed k f d : f (get k d) = get k d -> update k f d = d.
Proof.
  intros H. unfold update. apply list_eq. intros j.
  rewrite list_lookup_alter. case_decide as E; [subst j|done].
  destruct (d !! k) as [e|] eqn:Ek; [|done].
  rewrite (get_in_range _ _ _ Ek) in H. simpl. by rewrite H.
Qed.



Lemma validateField_cases field d d' ok :
  (field < length d)%nat ->
  validateField field d = Ok (d', ok) ->
  ok = passes (get field d) /\
  (if ok then d' = clearFieldError field d
   else showFieldError field
          (if truthy (trim (value (get field d)))
           then email_message else required_message)
          (clearFieldError field d) = Ok d').
Proof.
  intros Hin. rewrite validateField_eq by done. cbv zeta.
  unfold passes, hasAttribute. cbv zeta.
  generalize (Regex.test emailRegex (trim (value (get field d)))).
  generalize (truthy (trim (value (get field d)))).
  generalize (bool_decide (type (get field d) = "email")).
  generalize (bool_decide (is_Some (attrs (get field d) !! "required"))).
  intros [] [] [] []; cbn [andb negb];
    lazymatch goal with
    | |- (showFieldError ?f ?m ?x ≫= _) = _ -> _ =>
        destruct (showFieldError f m x) as [d1|] eqn:E;
        cbn [mbind result_bind];
        [intros [= <- <-]; split; done
        |discriminate]
    | |- _ => intros [= <- <-]; split; done
    end.
Qed.



(** X12.  Typing clears what leaving the field showed.  For a field of the
    form, the blur listener completes; whatever its verdict, the input
    listener that follows leaves no error annotation for the field, and
    neither listener changes the field's value, type, id or [required]
    attribute. *)
Theorem blur_then_input_leaves_no_error (field : nat) (d : dom) :
  (field < length d)%nat ->
  is_Some (parentNode (get field d)) ->
  (count_id (errorId field d) d <= 1)%nat ->
  exists d1 d2,
    on_blur field d = Ok d1 /\
    on_input field d1 = Ok d2 /\
    no_error field d2 /\
    same_input (get field d) (get field d2).
Proof.
  intros Hin Hp Hcount.
  assert (Hex : exists d1 ok, validateField field d = Ok (d1, ok) /\
                  (count_id (errorId field d) d1 <= 1)%nat).
  { destruct (validateField_validated field d Hin Hp)
      as [d1 _ _ H _ Hc|d1 _ _ _ H _ Hc|_ _ H].
    - exists d1, false. split; [done|]. rewrite Hc. lia.
    - exists d1, false. split; [done|]. rewrite Hc. lia.
    - exists (clearFieldError field d), true. split; [done|].
      rewrite clear_count_self. lia. }
  destruct Hex as (d1 & ok & H & Hc1).
  destruct (validateField_self _ _ _ _ Hin H) as [Hsame Hlen].
  assert (Hid : errorId field d1 = errorId field d).
  { unfold errorId. by rewrite (same_input_id field d d1). }
  exists d1, (clearFieldError field d1).
  split; [unfold on_blur; by rewrite H|]. split; [done|]. split.
  - apply clear_clears. by rewrite Hid.
  - rewrite clear_get_self by lia.
    eapply same_input_trans; [exact Hsame|apply same_input_unflag].
Qed.

Lemma blur_then_input_leaves_no_error_witness :
  ((name_field < length sample_form)%nat /\
   is_Some (parentNode (get name_field sample_form)) /\
   (count_id (errorId name_field sample_form) sample_form <= 1)%nat) /\
  exists d1 d2,
    on_blur name_field sample_form = Ok d1 /\
    on_input name_field d1 = Ok d2 /\
    no_error name_field d2.
Proof.
  assert (H1 : (name_field < length sample_form)%nat)
    by (vm_compute; lia).
  assert (H2 : is_Some (parentNode (get name_field sample_form)))
    by (vm_compute; eauto).
  assert (H3 : (count_id (errorId name_field sample_form) sample_form
                <= 1)%nat) by (vm_compute; lia).
  split; [done|].
  destruct (blur_then_input_leaves_no_error name_field sample_form
              H1 H2 H3) as (d1 & d2 & Hb & Hi & Hn & _).
  exists d1, d2. done.
Defined.

Lemma required_controls_controls k d :
  k ∈ required_controls d -> k ∈ controls d.
Proof.
  unfold required_controls, controls, select.
  intros [Hseq Hp]%list_elem_of_In%List.filter_In.
  apply list_elem_of_In, List.filter_In. split; [done|].
  by apply andb_prop in Hp as [Hp _].
Qed.

Lemma forEach_validate_frame (fields : list nat) :
  forall (inputs : list nat) (d d' : dom) (isValid ok : bool),
    (forall k, k ∈ inputs -> k ∈ fields) ->
    separate fields d ->
    forEach_validate inputs isValid d = Ok (d', ok) ->
    forall k, k ∈ fields -> k ∉ inputs -> get k d' = get k d.
Proof.
  induction inputs as [|input inputs IH];
    intros d d' isValid ok Hsub Hsep H k Hk Hnot.
  - simpl in H. by injection H as <- _.
  - simpl in H.
    assert (Hin : input ∈ fields) by (apply Hsub; left).
    destruct (validateField input d) as [[d1 ok1]|] eqn:E;
      cbn [mbind result_bind] in H; [|done].
    destruct (validateField_preserves fields input d d1 ok1 Hsep Hin E)
      as [Hsep1 _].
    assert (Hne : k ≠ input) by (intros ->; apply Hnot; left).
    assert (Hrest : get k d' = get k d1).
    { apply (IH d1 d' (if negb ok1 then false else isValid) ok);
        try done.
      - intros j Hj. apply Hsub. by right.
      - intros Hk'. apply Hnot. by right. }
    rewrite Hrest.
    destruct Hsep as (Hdom & Hids & Herr).
    apply (validateField_frame k input d d1 ok1); try done.
    + by apply Hdom.
    + by apply Hdom.
    + by apply Hids.
    + by apply Herr.
    + by apply Herr.
Qed.



Lemma trimStart_spaces ws v :
  Forall (fun c => is_space c = true) ws -> trimStart (ws ++ v) = trimStart v.
Proof.
  induction 1 as [|c ws Hc _ IH]; simpl; [done|]. by rewrite Hc.
Qed.

Lemma trimEnd_spaces v ws :
  Forall (fun c => is_space c = true) ws -> trimEnd (v ++ ws) = trimEnd v.
Proof.
  intros H. unfold trimEnd. rewrite rev_app_distr.
  rewrite trimStart_spaces; [done|].
  apply Forall_forall. intros c Hc%list_elem_of_In%List.in_rev.
  rewrite Forall_forall in H. by apply H, list_elem_of_In.
Qed.

Lemma trimStart_app v w :
  trimStart (v ++ w) =
  match trimStart v with
  | [] => trimStart w
  | _ => trimStart v ++ w
  end.
Proof.
  induction v as [|c v IH]; simpl; [done|].
  by destruct (is_space c).
Qed.

Lemma trim_padded ws v ws' :
  Forall (fun c => is_space c = true) ws ->
  Forall (fun c => is_space c = true) ws' ->
  trim (ws ++ v ++ ws') = trim v.
Proof.
  intros H H'. unfold trim.
  rewrite trimStart_spaces by done. rewrite trimStart_app.
  destruct (trimStart v) as [|c t] eqn:E.
  - rewrite <- (app_nil_r ws'), trimStart_spaces by done. done.
  - by rewrite trimEnd_spaces.
Qed.

(** X14.  White space around a value never changes the verdict.  For a
    field of the form, validating it as it is and validating it after the
    user has put any white space before and after its value both complete,
    with the same verdict. *)
Theorem surrounding_space_keeps_verdict (field : nat) (d : dom)
    (ws ws' : JsString.t) :
  (field < length d)%nat ->
  is_Some (parentNode (get field d)) ->
  Forall (fun c => is_space c = true) ws ->
  Forall (fun c => is_space c = true) ws' ->
  exists ok d1 d2,
    validateField field d = Ok (d1, ok) /\
    validateField field
      (set_value field (ws ++ value (get field d) ++ ws') d) = Ok (d2, ok).
Proof.
  intros Hin Hp Hws Hws'.
  set (d' := set_value field (ws ++ value (get field d) ++ ws') d).
  assert (Hin' : (field < length d')%nat)
    by (unfold d', set_value; by rewrite length_update).
  assert (Hget : get field d' =
                 with_value (ws ++ value (get field d) ++ ws') (get field d))
    by (unfold d', set_value; by rewrite get_update_eq).
  assert (Hp' : is_Some (parentNode (get field d'))) by (by rewrite Hget).
  assert (Hex : forall k x, (k < length x)%nat ->
            is_Some (parentNode (get k x)) ->
            exists x1 ok, validateField k x = Ok (x1, ok)).
  { intros k x Hk Hpk.
    destruct (validateField_validated k x Hk Hpk)
      as [x1 _ _ H _ _|x1 _ _ _ H _ _|_ _ H]; eauto. }
  destruct (Hex field d Hin Hp) as (d1 & ok & H1).
  destruct (Hex field d' Hin' Hp') as (d2 & ok' & H2).
  exists ok, d1, d2. split; [done|]. rewrite H2. do 2 f_equal.
  destruct (validateField_steps _ _ _ _ Hin H1) as [-> _].
  destruct (validateField_steps _ _ _ _ Hin' H2) as [-> _].
  rewrite Hget. unfold passes. cbv zeta. simpl.
  by rewrite trim_padded.
Qed.

Lemma surrounding_space_keeps_verdict_witness :
  ((email_field < length sample_form)%nat /\
   is_Some (parentNode (get email_field sample_form)) /\
   Forall (fun c => is_space c = true) (of_string " ") /\
   Forall (fun c => is_space c = true) [9%N; 160%N]) /\
  exists ok d1 d2,
    validateField email_field sample_form = Ok (d1, ok) /\
    validateField email_field
      (set_value email_field
         (of_string " " ++ value (get email_field sample_form)
          ++ [9%N; 160%N]) sample_form) = Ok (d2, ok).
Proof.
  assert (H1 : (email_field < length sample_form)%nat)
    by (vm_compute; lia).
  assert (H2 : is_Some (parentNode (get email_field sample_form)))
    by (vm_compute; eauto).
  assert (H3 : Forall (fun c => is_space c = true) (of_string " "))
    by (repeat constructor).
  assert (H4 : Forall (fun c => is_space c = true) [9%N; 160%N])
    by (repeat constructor).
  split; [done|].
  exact (surrounding_space_keeps_verdict email_field sample_form
           (of_string " ") [9%N; 160%N] H1 H2 H3 H4).
Defined.

Lemma not_space_or_at_inv c :
  not_space_or_at c = true -> is_space c = false /\ c ≠ at_sign.
Proof.
  unfold not_space_or_at. intros H%negb_true_iff%orb_false_elim.
  destruct H as [Hs Ha]. split; [done|]. by apply N.eqb_neq.
Qed.

Lemma count_at_free l :
  Forall (fun c => not_space_or_at c = true) l ->
  count_occ N.eq_dec l at_sign = 0%nat.
Proof.
  intros H. apply count_occ_not_In. intros Hin.
  rewrite Forall_forall in H.
  apply list_elem_of_In, H, not_space_or_at_inv in Hin. by destruct Hin.
Qed.

(** X15.  What the email pattern requires of every address it accepts:
    exactly one [@], which is neither the first nor the last code unit, no
    white space anywhere, and at least five code units. *)
Theorem email_pattern_one_at_sign_no_space (s : JsString.t) :
  Regex.test emailRegex s = true ->
  count_occ N.eq_dec s at_sign = 1%nat /\
  Forall (fun c => is_space c = false) s /\
  (5 <= length s)%nat /\
  head s ≠ Some at_sign /\
  List.last s 0%N ≠ at_sign.
Proof.
  intros (loc & dom & tld & -> & Hl & Hd & Ht & Hall)%emailRegex_accepts.
  apply Forall_app in Hall as [Hloc Hall].
  apply Forall_app in Hall as [Hdom Htld].
  split; [|split; [|split; [|split]]].
  - rewrite !count_occ_app, (count_at_free loc), (count_at_free dom),
      (count_at_free tld) by done. reflexivity.
  - assert (Hsp : forall l, Forall (fun c => not_space_or_at c = true) l ->
                    Forall (fun c => is_space c = false) l).
    { intros l Hl'. eapply Forall_impl; [exact Hl'|]. intros c Hc.
      by apply not_space_or_at_inv in Hc as [? _]. }
    repeat (apply Forall_app; split); auto; by repeat constructor.
  - rewrite !length_app. simpl.
    destruct loc, dom, tld; simpl; try done; lia.
  - destruct loc as [|c loc]; [done|]. simpl.
    apply Forall_cons in Hloc as [Hc _].
    apply not_space_or_at_inv in Hc as [_ Hc]. congruence.
  - rewrite !app_assoc.
    destruct (exists_last Ht) as (t & c & ->).
    rewrite app_assoc, List.last_last.
    apply Forall_app in Htld as [_ Hc].
    apply Forall_cons in Hc as [Hc _].
    by apply not_space_or_at_inv in Hc as [_ Hc].
Qed.

Lemma email_pattern_one_at_sign_no_space_witness :
  Regex.test emailRegex (of_string "ada@example.org") = true /\
  count_occ N.eq_dec (of_string "ada@example.org") at_sign = 1%nat.
Proof.
  assert (H : Regex.test emailRegex (of_string "ada@example.org") = true)
    by (vm_compute; reflexivity).
  split; [exact H|].
  exact (proj1 (email_pattern_one_at_sign_no_space _ H)).
Defined.

End FormFurther.

(** ** Anchor links and cards *)

Section AccessibilityFacts.

Import Dom Accessibility.

Lemma find_index_first {A} (p : A -> bool) (l : list A) k :
  find_index p l = Some k ->
  forall j x, (j < k)%nat -> l !! j = Some x -> p x = false.
Proof.
  revert k. induction l as [|y l IH]; intros k; simpl; [done|].
  destruct (p y) eqn:Hy.
  - intros [= <-] j x Hj. lia.
  - destruct (find_index p l) as [k'|] eqn:E; simpl; [|done].
    intros [= <-] [|j] x Hj; simpl.
    + congruence.
    + apply (IH k' eq_refl). lia.
Qed.

Lemma prefix_hash href :
  String.prefix "#" href = true -> href = "#" +:+ substring1 href.
Proof.
  destruct href as [|c href]; [done|].
  change (String.prefix "#" (String c href))
    with (if Ascii.ascii_dec "#" c then String.prefix "" href else false).
  by destruct (Ascii.ascii_dec "#" c) as [<-|].
Qed.

Lemma anchorLinks_spec link d :
  link ∈ anchorLinks d ->
  (link < length d)%nat /\
  exists i, attrs (get link d) !! "href" = Some ("#" +:+ i).
Proof.
  unfold anchorLinks, select.
  intros [Hseq Hp]%list_elem_of_In%List.filter_In.
  apply List.in_seq in Hseq. split; [lia|].
  apply andb_prop in Hp as [_ Hp].
  destruct (attrs (get link d) !! "href") as [href|]; [|done].
  exists (substring1 href). f_equal. by apply prefix_hash.
Qed.

(** X16.  A click on an in-page link is taken over exactly when its target
    exists.  For a link selected by [a[href^="#"]], with [href] the
    character [#] followed by [i]: the listener never throws; if an
    attached element has id [i], the click is cancelled and the first such
    element in document order is scrolled into view, smoothly unless
    reduced motion is preferred, and then focused without scrolling;
    otherwise, and always for the bare [#], the event is left as it is and
    nothing is called. *)
Theorem anchor_click_intercepted_iff_target (link : nat) (d : dom)
    (prefersReducedMotion : bool) (event : ui_event) :
  link ∈ anchorLinks d ->
  exists i,
    attrs (get link d) !! "href" = Some ("#" +:+ i) /\
    match getElementById i d with
    | Some t =>
        on_anchor_click prefersReducedMotion link event d =
          Ok (preventDefault event,
              [ScrollIntoView t
                 (if prefersReducedMotion then "auto" else "smooth") "start";
               Focus t true]) /\
        i ≠ "" /\ has_id i (get t d) = true /\
        (forall j, (j < t)%nat -> has_id i (get j d) = false)
    | None =>
        on_anchor_click prefersReducedMotion link event d = Ok (event, []) /\
        (i = "" \/ forall j, (j < length d)%nat -> has_id i (get j d) = false)
    end.
Proof.
  intros (Hlt & i & Hhref)%anchorLinks_spec. exists i. split; [done|].
  unfold on_anchor_click. rewrite Hhref. cbv zeta.
  change (substring1 ("#" +:+ i)) with i.
  destruct (getElementById i d) as [t|] eqn:E.
  - split; [done|].
    destruct (getElementById_Some _ _ _ E) as [Ht Hid].
    assert (Hi : i ≠ "").
    { intros ->. unfold getElementById in E. by rewrite bool_decide_eq_true_2 in E. }
    do 2 (split; [done|]).
    intros j Hj. rewrite getElementById_nonempty in E by done.
    destruct (d !! j) as [x|] eqn:Ej.
    + rewrite (get_in_range _ _ _ Ej).
      by apply (find_index_first _ _ _ E j x).
    + apply lookup_ge_None in Ej. lia.
  - split; [done|].
    destruct (decide (i = "")) as [->|Hi]; [by left|right].
    rewrite getElementById_nonempty in E by done.
    apply find_index_None in E.
    intros j Hj. destruct (d !! j) as [x|] eqn:Ej.
    + rewrite (get_in_range _ _ _ Ej).
      destruct (has_id i x) eqn:Hx; [|done].
      assert (Hin : In x (List.filter (has_id i) d)).
      { apply List.filter_In. split; [|done].
        by apply list_elem_of_In, (list_elem_of_lookup_2 _ j). }
      by rewrite E in Hin.
    + apply lookup_ge_None in Ej. lia.
Qed.

Lemma anchor_click_intercepted_iff_target_witness :
  (1%nat ∈ anchorLinks linked_page /\ 2%nat ∈ anchorLinks linked_page) /\
  on_anchor_click false 1 {| defaultPrevented := false |} linked_page =
    Ok ({| defaultPrevented := true |},
        [ScrollIntoView 5 "smooth" "start"; Focus 5 true]) /\
  on_anchor_click false 2 {| defaultPrevented := false |} linked_page =
    Ok ({| defaultPrevented := false |}, []).
Proof.
  assert (Hl : anchorLinks linked_page = [1; 2; 3]%nat)
    by (vm_compute; reflexivity).
  assert (H1 : 1%nat ∈ anchorLinks linked_page)
    by (rewrite Hl; left).
  assert (H2 : 2%nat ∈ anchorLinks linked_page)
    by (rewrite Hl; right; left).
  split; [done|]. split.
  - destruct (anchor_click_intercepted_iff_target 1 linked_page false
                {| defaultPrevented := false |} H1) as (i & Hi & H).
    assert (i = "about") as -> by (vm_compute in Hi; congruence).
    exact (proj1 H).
  - destruct (anchor_click_intercepted_iff_target 2 linked_page false
                {| defaultPrevented := false |} H2) as (i & Hi & H).
    assert (i = "") as -> by (vm_compute in Hi; congruence).
    exact (proj1 H).
Defined.


End AccessibilityFacts.
